(** * Particles::Particle and its PropertyPool

    A shallow embedding of [include/deal.II/particles/particle.h]: the
    inline member functions of [Particle<dim, spacedim>] ([has_properties],
    the const [get_properties], [set_property_pool], [save], [load]) are
    translated function by function.  [PropertyPool] and the member
    functions that live in the .cc file (the mutable [get_properties], the
    copy and move constructors) are not part of the header; they are
    modelled from the specification and marked as such. *)

From stdpp Require Import base numbers option list strings gmap pretty.

Open Scope nat_scope.

(** ** Values *)

(** A [double] is represented by its IEEE-754 binary64 bit pattern.  The
    particle code never computes with property values, it only stores and
    copies them, so equality of patterns is bitwise equality. *)
Definition double := Z.

(** [Point<k>]: the list of its [k] coordinates. *)
Definition Point := list double.

(** [types::particle_index]: [unsigned int] or [uint64_t] depending on the
    build; the value is only stored and copied. *)
Definition particle_index := N.

(** [unsigned int n_properties = ....size()]: the conversion from
    [std::size_t] wraps modulo 2^32. *)
Definition to_unsigned_int (n : nat) : N := (N.of_nat n mod 2 ^ 32)%N.

(** ** PropertyPool (not in the header) *)

(** Modelled from the spec: [PropertyPool<dim,spacedim>::Handle] is missing
    from the sources.  "A Handle is an opaque index into the arena (or a
    sentinel invalid_handle)". *)
Inductive Handle :=
  | invalid_handle
  | handle (slot : nat).

#[global] Instance Handle_eq_dec : EqDecision Handle.
Proof. solve_decision. Defined.

(** Modelled from the spec: the [PropertyPool] class is missing from the
    sources.  It "owns a flat arena of double slots,
    n_properties_per_slot fixed at construction"; released slots go "to a
    free list for reuse" and the arena never shrinks.  [n_slots] counts the
    slots the arena has been grown to (it cannot be recovered from the
    arena's length when a slot holds no double). *)
Record PropertyPool := mkPool {
  n_properties_per_slot : nat;
  n_slots : nat;
  arena : list double;
  free_list : list nat
}.

(** Modelled from the spec: [PropertyPool::allocate] is missing from the
    sources.  "returns a fresh Handle backed by n_properties_per_slot zero-
    or caller-initialized doubles; amortized O(1); may grow the backing
    arena"; "deallocating a handle and allocating a new one may reuse the
    same slot index".  A reused slot keeps its contents (caller-initialized),
    a new slot is zero-filled. *)
Definition allocate (pool : PropertyPool) : Handle * PropertyPool :=
  match free_list pool with
  | i :: rest =>
      (handle i,
       mkPool (n_properties_per_slot pool) (n_slots pool) (arena pool) rest)
  | [] =>
      (handle (n_slots pool),
       mkPool (n_properties_per_slot pool) (S (n_slots pool))
              (arena pool ++ replicate (n_properties_per_slot pool) 0%Z) [])
  end.

(** The address range of slot [i] in the arena. *)
Definition slot_begin (pool : PropertyPool) (i : nat) : nat :=
  i * n_properties_per_slot pool.

(** The doubles slot [i] holds, when the slot lies inside the arena. *)
Definition slot_values (pool : PropertyPool) (i : nat) : option (list double) :=
  sublist_lookup (slot_begin pool i) (n_properties_per_slot pool) (arena pool).

(** The pool after slot [i] went back to the free list. *)
Definition released (pool : PropertyPool) (i : nat) : PropertyPool :=
  mkPool (n_properties_per_slot pool) (n_slots pool) (arena pool)
         (i :: free_list pool).

(** The pool after the doubles [l] were stored from arena offset [b] on. *)
Definition written (pool : PropertyPool) (b : nat) (l : list double)
  : PropertyPool :=
  mkPool (n_properties_per_slot pool) (n_slots pool)
         (sublist_alter (λ _, l) b (length l) (arena pool))
         (free_list pool).

(** A handle is live between [allocate] and the matching [deallocate]. *)
Definition live (pool : PropertyPool) (i : nat) : Prop :=
  i < n_slots pool ∧ i ∉ free_list pool.

(** Representation invariant of a pool: the arena holds [n_slots] slots,
    the free list names existing slots, each once, and the slot size fits
    the [unsigned int] in which [save] stores the property count. *)
Record pool_wf (pool : PropertyPool) : Prop := {
  wf_arena : length (arena pool) = n_slots pool * n_properties_per_slot pool;
  wf_free : ∀ i, i ∈ free_list pool → i < n_slots pool;
  wf_nodup : NoDup (free_list pool);
  wf_size : (N.of_nat (n_properties_per_slot pool) < 2 ^ 32)%N
}.

(** ** Particle *)

(** The data members of [Particle<dim, spacedim>].  [property_pool] is a
    pointer: [None] is [nullptr], [Some a] the address of a pool. *)
Record Particle := mkParticle {
  location : Point;
  reference_location : Point;
  id : particle_index;
  property_pool : option nat;
  properties : Handle
}.

(** [ArrayView<double>]: a pointer into the arena of a pool and a length. *)
Record ArrayView := mkView {
  av_pool : nat;
  av_data : nat;
  av_size : nat
}.

(** What [operator&] moves through a Boost archive, one primitive value at
    a time; a [Point<k>] is written as its [k] coordinates and
    [make_array(p, n)] as [n] doubles. *)
Inductive Prim :=
  | PDouble (d : double)
  | PIndex (i : particle_index)
  | PUInt (n : N).

(** ** Exceptions and the state they are raised in *)

Inductive Exc :=
  | ExcInternalError
  | ExcMessage (msg : string)
  | ExcInvalidHandle
  | ExcHandleReleased
  | ExcIndexRange
  | ExcArchive
  | Undefined.

Inductive Result (A : Type) :=
  | Ok (a : A)
  | Raise (e : Exc).
Arguments Ok {A} a.
Arguments Raise {A} e.

(** The memory a member function works on: the object [*this], the pools
    by address, and the archive (read from the front by [load], appended to
    by [save]). *)
Record State := mkState {
  this : Particle;
  pools : gmap nat PropertyPool;
  archive : list Prim
}.

(** A computation returns a value or raises; the memory is threaded through
    both outcomes, so the state after a raised exception is the one the
    exception left behind.  [Assert] is modelled as in a debug build, where
    a failed assertion raises. *)
Definition M (A : Type) : Type := State → Result A * State.

Definition ret {A} (a : A) : M A := λ s, (Ok a, s).

Definition bind {A B} (m : M A) (k : A → M B) : M B :=
  λ s, match m s with
       | (Ok a, s') => k a s'
       | (Raise e, s') => (Raise e, s')
       end.

Definition raise {A} (e : Exc) : M A := λ s, (Raise e, s).

Declare Scope particle_scope.
Delimit Scope particle_scope with M.
Notation "x <- m ;; k" := (bind m (λ x, k))
  (at level 100, m at next level, right associativity) : particle_scope.
Notation "m ;;; k" := (bind m (λ _, k))
  (at level 100, right associativity) : particle_scope.
Open Scope particle_scope.

Definition Assert (c : bool) (e : Exc) : M unit :=
  if c then ret tt else raise e.

Definition get_this : M Particle := λ s, (Ok (this s), s).

Definition put_this (p : Particle) : M unit :=
  λ s, (Ok tt, mkState p (pools s) (archive s)).

(** Dereferencing a pool pointer; a dangling address is undefined
    behaviour. *)
Definition deref (a : nat) : M PropertyPool :=
  λ s, match pools s !! a with
       | Some pool => (Ok pool, s)
       | None => (Raise Undefined, s)
       end.

Definition store (a : nat) (pool : PropertyPool) : M unit :=
  λ s, (Ok tt, mkState (this s) (<[a := pool]> (pools s)) (archive s)).

(** [pool.allocate_properties_array()] on the pool at address [a]. *)
Definition allocate_properties_array (a : nat) : M Handle :=
  pool <- deref a ;;
  store a (allocate pool).2 ;;;
  ret (allocate pool).1.

(** Modelled from the spec: [PropertyPool::deallocate] is missing from the
    sources.  "fails with an error if handle is invalid or already
    released; otherwise returns the slot to a free list for reuse.  Does
    not shrink the arena". *)
Definition deallocate_properties_array (a : nat) (h : Handle) : M unit :=
  pool <- deref a ;;
  match h with
  | invalid_handle => raise ExcInvalidHandle
  | handle i =>
      if bool_decide (i ∈ free_list pool) then raise ExcHandleReleased
      else store a (released pool i)
  end.

(** Modelled from the spec: [PropertyPool::get_properties] is missing from
    the sources.  "returns a mutable or read-only fixed-length view into
    the slot; fails with an error if handle == invalid_handle". *)
Definition pool_get_properties (a : nat) (h : Handle) : M ArrayView :=
  pool <- deref a ;;
  match h with
  | invalid_handle => raise ExcInvalidHandle
  | handle i => ret (mkView a (slot_begin pool i) (n_properties_per_slot pool))
  end.

(** Reading [n] doubles from [v.data()]; reading past the arena is
    undefined behaviour. *)
Definition read_doubles (v : ArrayView) (n : nat) : M (list double) :=
  pool <- deref (av_pool v) ;;
  match sublist_lookup (av_data v) n (arena pool) with
  | Some l => ret l
  | None => raise Undefined
  end.

(** Writing the doubles [l] from [v.data()] on, as [std::copy] to
    [v.begin()] and the array read of an archive do.  The length of the
    view is not consulted; writing past the arena is undefined behaviour. *)
Definition write_doubles (v : ArrayView) (l : list double) : M unit :=
  pool <- deref (av_pool v) ;;
  if bool_decide (av_data v + length l ≤ length (arena pool)) then
    store (av_pool v) (written pool (av_data v) l)
  else raise Undefined.

(** The pool after the double at arena offset [x] was set to [d]. *)
Definition poked (pool : PropertyPool) (x : nat) (d : double) : PropertyPool :=
  mkPool (n_properties_per_slot pool) (n_slots pool)
         (<[x := d]> (arena pool)) (free_list pool).

(** Modelled from the spec: [ArrayView] is missing from the sources; a
    view is "a mutable or read-only fixed-length view into the slot".
    The assignment [v[k] = d] checks the index against the length of the
    view. *)
Definition write_double (v : ArrayView) (k : nat) (d : double) : M unit :=
  if bool_decide (k < av_size v) then
    pool <- deref (av_pool v) ;;
    if bool_decide (av_data v + k < length (arena pool)) then
      store (av_pool v) (poked pool (av_data v + k) d)
    else raise Undefined
  else raise ExcIndexRange.

(** Appending to the archive ([ar & x] on an output archive). *)
Definition ar_write (l : list Prim) : M unit :=
  λ s, (Ok tt, mkState (this s) (pools s) (archive s ++ l)).

(** Taking the next primitive value of an input archive; an exhausted
    stream raises the archive's exception. *)
Definition ar_next : M Prim :=
  λ s, match archive s with
       | x :: rest => (Ok x, mkState (this s) (pools s) rest)
       | [] => (Raise ExcArchive, s)
       end.

Definition ar_read_double : M double :=
  x <- ar_next ;;
  match x with PDouble d => ret d | _ => raise ExcArchive end.

Definition ar_read_index : M particle_index :=
  x <- ar_next ;;
  match x with PIndex i => ret i | _ => raise ExcArchive end.

Definition ar_read_unsigned : M N :=
  x <- ar_next ;;
  match x with PUInt n => ret n | _ => raise ExcArchive end.

(** [k] doubles in a row: a [Point<k>] or [make_array(p, k)]. *)
Fixpoint ar_read_doubles (k : nat) : M (list double) :=
  match k with
  | 0 => ret []
  | S k' => d <- ar_read_double ;; l <- ar_read_doubles k' ;; ret (d :: l)
  end.

Definition with_location (x : Point) (p : Particle) : Particle :=
  mkParticle x (reference_location p) (id p) (property_pool p) (properties p).

Definition with_reference_location (x : Point) (p : Particle) : Particle :=
  mkParticle (location p) x (id p) (property_pool p) (properties p).

Definition with_id (i : particle_index) (p : Particle) : Particle :=
  mkParticle (location p) (reference_location p) i (property_pool p) (properties p).

Definition with_property_pool (a : option nat) (p : Particle) : Particle :=
  mkParticle (location p) (reference_location p) (id p) a (properties p).

Definition with_properties (h : Handle) (p : Particle) : Particle :=
  mkParticle (location p) (reference_location p) (id p) (property_pool p) h.

(** Assignment to a data member of [*this]. *)
Definition modify_this (f : Particle → Particle) : M unit :=
  p <- get_this ;; put_this (f p).

(** The diagnostic of [load]; [std::to_string] prints in decimal. *)
Definition load_message (n_properties size : N) : string :=
  "This particle was serialized with " +:+ pretty n_properties +:+
  " properties, but the new property handler provides space for " +:+
  pretty size +:+
  " properties. Deserializing a particle only works for matching property sizes.".

Section Particle.

(** The template parameters. *)
Variables dim spacedim : nat.

(** [Particle::has_properties() const]. *)
Definition has_properties (p : Particle) : bool :=
  bool_decide (property_pool p ≠ None) &&
  bool_decide (properties p ≠ invalid_handle).

(** [Particle::get_properties() const]. *)
Definition get_properties_const : M ArrayView :=
  p <- get_this ;;
  Assert (has_properties p) ExcInternalError ;;;
  match property_pool p with
  | Some a => pool_get_properties a (properties p)
  | None => raise Undefined
  end.

(** Modelled from the spec: the mutable [Particle::get_properties()] is
    defined in the .cc file, which is missing from the sources.  It
    "fails with an error if no pool is bound and no properties exist;
    mutable access on a particle without an existing allocation lazily
    allocates from the bound pool". *)
Definition get_properties : M ArrayView :=
  p <- get_this ;;
  match property_pool p with
  | None => raise ExcInternalError
  | Some a =>
      (if bool_decide (properties p = invalid_handle) then
         h <- allocate_properties_array a ;;
         modify_this (with_properties h)
       else ret tt) ;;;
      p' <- get_this ;;
      pool_get_properties a (properties p')
  end.

(** [Particle::set_property_pool(PropertyPool &new_property_pool)].
    [std::copy] reads the old view and writes from the start of the new
    one; the two ranges are in different arenas, or in one arena at
    offsets that are multiples of one slot size, so reading all
    elements before writing them is what the element-wise copy does. *)
Definition set_property_pool (new_property_pool : nat) : M unit :=
  p <- get_this ;;
  new_handle <-
    (if bool_decide (property_pool p ≠ None) &&
        bool_decide (properties p ≠ invalid_handle) then
       new_handle <- allocate_properties_array new_property_pool ;;
       old_properties <- get_properties ;;
       new_properties <- pool_get_properties new_property_pool new_handle ;;
       values <- read_doubles old_properties (av_size old_properties) ;;
       write_doubles new_properties values ;;;
       ret new_handle
     else ret invalid_handle) ;;
  p <- get_this ;;
  (if bool_decide (property_pool p ≠ None) &&
      bool_decide (properties p ≠ invalid_handle) then
     match property_pool p with
     | Some a => deallocate_properties_array a (properties p)
     | None => raise Undefined
     end
   else ret tt) ;;;
  modify_this (with_property_pool (Some new_property_pool)) ;;;
  modify_this (with_properties new_handle).

(** [Particle::save(Archive &ar, const unsigned int) const]. *)
Definition save : M unit :=
  p <- get_this ;;
  n_properties <-
    (if bool_decide (property_pool p ≠ None) &&
        bool_decide (properties p ≠ invalid_handle) then
       v <- get_properties_const ;; ret (to_unsigned_int (av_size v))
     else ret 0%N) ;;
  ar_write (PDouble <$> location p) ;;;
  ar_write (PDouble <$> reference_location p) ;;;
  ar_write [PIndex (id p)] ;;;
  ar_write [PUInt n_properties] ;;;
  if bool_decide (0 < n_properties)%N then
    v <- get_properties_const ;;
    values <- read_doubles v (N.to_nat n_properties) ;;
    ar_write (PDouble <$> values)
  else ret tt.

(** [Particle::load(Archive &ar, const unsigned int)].  [load] is not
    const, so both calls of [get_properties()] are the mutable one.  A
    point or the array is stored once all its elements have been read;
    the archive of the source stores each element as it reads it, so
    after an archive exception inside a point or inside the array the
    coordinates or doubles read so far are already in place there.
    Handles, free lists and the size of the arenas are the same in both,
    and nothing below reads the coordinates or the slot contents that an
    archive exception leaves behind. *)
Definition load : M unit :=
  x <- ar_read_doubles spacedim ;;
  modify_this (with_location x) ;;;
  x <- ar_read_doubles dim ;;
  modify_this (with_reference_location x) ;;;
  i <- ar_read_index ;;
  modify_this (with_id i) ;;;
  n_properties <- ar_read_unsigned ;;
  if bool_decide (0 < n_properties)%N then
    properties <- get_properties ;;
    Assert (bool_decide (N.of_nat (av_size properties) = n_properties))
           (ExcMessage (load_message n_properties
                                     (N.of_nat (av_size properties)))) ;;;
    v <- get_properties ;;
    values <- ar_read_doubles (N.to_nat n_properties) ;;
    write_doubles v values
  else ret tt.

(** Modelled from the spec: the copy constructor and copy assignment are
    defined in the .cc file, which is missing from the sources.  It
    "duplicates location/id; if source has properties, allocates a new
    handle in the same pool and deep-copies values".  The object under
    construction is [*this]. *)
Definition Particle_copy (particle : Particle) : M unit :=
  put_this (mkParticle (location particle) (reference_location particle)
                       (id particle) (property_pool particle)
                       invalid_handle) ;;;
  if has_properties particle then
    match property_pool particle with
    | Some a =>
        h <- allocate_properties_array a ;;
        modify_this (with_properties h) ;;;
        their_properties <- pool_get_properties a (properties particle) ;;
        my_properties <- pool_get_properties a h ;;
        values <- read_doubles their_properties (av_size their_properties) ;;
        write_doubles my_properties values
    | None => raise Undefined
    end
  else ret tt.

(** Modelled from the spec: the move constructor and move assignment are
    defined in the .cc file, which is missing from the sources.  It
    "transfers location/id/pool pointer/handle; source becomes
    propertyless (handle reset to invalid)".  The result is the
    moved-from object. *)
Definition Particle_move (particle : Particle) : M Particle :=
  put_this (mkParticle (location particle) (reference_location particle)
                       (id particle) (property_pool particle)
                       (properties particle)) ;;;
  ret (with_properties invalid_handle particle).

(** Client code [get_properties()[k] = d] on a mutable particle. *)
Definition write_property (k : nat) (d : double) : M unit :=
  v <- get_properties ;;
  write_double v k d.

(** A sequence of such assignments; it stops at the first that raises. *)
Fixpoint write_all (ws : list (nat * double)) : M unit :=
  match ws with
  | [] => ret tt
  | (k, d) :: ws' => write_property k d ;;; write_all ws'
  end.

(** [Particle::set_location(const Point<spacedim> &new_loc)]. *)
Definition set_location (new_loc : Point) : M unit :=
  modify_this (with_location new_loc).

(** [Particle::get_location() const]. *)
Definition get_location (p : Particle) : Point := location p.

(** [Particle::set_reference_location(const Point<dim> &new_loc)]. *)
Definition set_reference_location (new_loc : Point) : M unit :=
  modify_this (with_reference_location new_loc).

(** [Particle::get_reference_location() const]. *)
Definition get_reference_location (p : Particle) : Point :=
  reference_location p.

(** [Particle::get_id() const]. *)
Definition get_id (p : Particle) : particle_index := id p.

(** [Particle::set_id(const types::particle_index &new_id)]. *)
Definition set_id (new_id : particle_index) : M unit :=
  modify_this (with_id new_id).

(** [boost::geometry::index::indexable<Particle>::operator()]: what an
    rtree of particles indexes a particle by. *)
Definition indexable (particle : Particle) : Point := get_location particle.

(** The doubles a particle's handle designates in a given memory. *)
Definition property_values (p : Particle) (mem : gmap nat PropertyPool)
  : option (list double) :=
  match property_pool p, properties p with
  | Some a, handle i => pool ← mem !! a; slot_values pool i
  | _, _ => None
  end.

End Particle.

(** ** Derived notions, invariants and concrete states *)

(** The slot index [allocate] hands out. *)
Definition allocated_slot (pool : PropertyPool) : nat :=
  match free_list pool with
  | i :: _ => i
  | [] => n_slots pool
  end.

(** The number of slots of a pool that are handed out: those the arena
    was grown to, less those on the free list. *)
Definition live_slots (pool : PropertyPool) : Z :=
  Z.of_nat (n_slots pool) - Z.of_nat (length (free_list pool)).

(** The three fields [load] reads first. *)
Definition same_header (p q : Particle) : Prop :=
  location q = location p ∧ reference_location q = reference_location p ∧
  id q = id p.

(** The particle [p] holds slot [i] of the pool at address [a], which
    exists, is well formed and has that slot. *)
Definition owns (p : Particle) (mem : gmap nat PropertyPool)
    (a i : nat) (pool : PropertyPool) : Prop :=
  property_pool p = Some a ∧ properties p = handle i ∧
  mem !! a = Some pool ∧ pool_wf pool ∧ i < n_slots pool.

(** A particle that has properties holds a slot of an existing pool. *)
Definition particle_wf (p : Particle) (mem : gmap nat PropertyPool) : Prop :=
  has_properties p = true → ∃ a i pool, owns p mem a i pool.

(** The number of properties of a particle: the slot size of its pool
    when it has properties, 0 otherwise. *)
Definition property_count (p : Particle) (mem : gmap nat PropertyPool) : nat :=
  match property_pool p, properties p with
  | Some a, handle _ => from_option n_properties_per_slot 0 (mem !! a)
  | _, _ => 0
  end.

(** The four fields every record starts with. *)
Definition header (x y : Point) (i : particle_index) (n : N) : list Prim :=
  (PDouble <$> x) ++ (PDouble <$> y) ++ [PIndex i; PUInt n].

(** The part of [load] after the four header fields have been read. *)
Definition load_properties (n_properties : N) : M unit :=
  if bool_decide (0 < n_properties)%N then
    properties <- get_properties ;;
    Assert (bool_decide (N.of_nat (av_size properties) = n_properties))
           (ExcMessage (load_message n_properties
                                     (N.of_nat (av_size properties)))) ;;;
    v <- get_properties ;;
    values <- ar_read_doubles (N.to_nat n_properties) ;;
    write_doubles v values
  else ret tt.

(** The pool a particle's handle is looked up in, once the target pool of
    [set_property_pool] holds the copy. *)
Definition pool_behind (a new : nat) (pool npool2 : PropertyPool)
  : PropertyPool :=
  if decide (a = new) then npool2 else pool.

(** The target pool of [set_property_pool] after allocation and copy. *)
Definition pool_with_copy (npool : PropertyPool) (l : list double)
  : PropertyPool :=
  written (allocate npool).2
          (slot_begin npool (allocated_slot npool)) l.

(** The particles alive at one moment: each one that has properties owns
    a live slot of an existing pool, and no two of them hold the same
    handle of the same pool.  (A handle is an index into the arena of one
    pool; equal indices of different pools designate different slots.) *)
Definition ownership (ps : list Particle) (mem : gmap nat PropertyPool)
  : Prop :=
  (∀ p, p ∈ ps → has_properties p = true →
     ∃ a i pool, owns p mem a i pool ∧ live pool i) ∧
  (∀ m n p q, ps !! m = Some p → ps !! n = Some q → m ≠ n →
     has_properties p = true → has_properties q = true →
     property_pool p = property_pool q → properties p ≠ properties q).

(** Every pool of the memory is well formed. *)
Definition all_wf (mem : gmap nat PropertyPool) : Prop :=
  ∀ a pool, mem !! a = Some pool → pool_wf pool.

(** The state of a member function that runs on the particle at index [m]
    of the live particles [ps]: with [*this] in its place the handles are
    unique, and the pools are well formed. *)
Definition unique_at (ps : list Particle) (m : nat) (s : State) : Prop :=
  ownership (<[m := this s]> ps) (pools s) ∧ all_wf (pools s).

(** A computation after which this holds again, whether it returns or
    raises. *)
Definition keeps_unique {A} (ps : list Particle) (m : nat) (c : M A) : Prop :=
  ∀ s, unique_at ps m s → unique_at ps m (c s).2.

(** A pool of two slots of two doubles, both live. *)
Definition ex_pool : PropertyPool := mkPool 2 2 [10; 11; 20; 21]%Z [].

(** An empty pool of slot size two, and one of slot size three. *)
Definition ex_pool2 : PropertyPool := mkPool 2 0 [] [].
Definition ex_pool3 : PropertyPool := mkPool 3 0 [] [].

Definition ex_mem : gmap nat PropertyPool :=
  {[ 0 := ex_pool; 5 := ex_pool2; 6 := ex_pool3 ]}.

(** A particle that owns slot 1 of the pool at address 0, one more that
    owns slot 0, one bound to the pool at 5 without properties, one bound
    to the pool at 6 without properties, and one with no pool. *)
Definition ex_p : Particle := mkParticle [1; 2]%Z [3; 4]%Z 7%N (Some 0) (handle 1).
Definition ex_p0 : Particle := mkParticle [5; 6]%Z [7; 8]%Z 8%N (Some 0) (handle 0).
Definition ex_q : Particle := mkParticle [0; 0]%Z [0; 0]%Z 0%N (Some 5) invalid_handle.
Definition ex_q3 : Particle := mkParticle [0; 0]%Z [0; 0]%Z 0%N (Some 6) invalid_handle.
Definition ex_unbound : Particle := mkParticle [0; 0]%Z [0; 0]%Z 0%N None invalid_handle.

(** A pool whose slot 0 was released while a particle still holds it. *)
Definition ex_pool_released : PropertyPool := mkPool 2 2 [10; 11; 20; 21]%Z [0].
Definition ex_mem_released : gmap nat PropertyPool :=
  {[ 0 := ex_pool_released; 5 := ex_pool2 ]}.

(** A particle with one property, 5, in the pool at address 0, and at
    address 1 an empty pool of slot size two. *)
Definition grow_old : PropertyPool := mkPool 1 1 [5]%Z [].
Definition grow_new : PropertyPool := mkPool 2 0 [] [].
Definition grow_mem : gmap nat PropertyPool := {[ 0 := grow_old; 1 := grow_new ]}.
Definition grow_p : Particle := mkParticle [1; 2]%Z [3; 4]%Z 7%N (Some 0) (handle 0).

(** A particle with two properties, 5 and 6, in the pool at address 0, and
    at address 1 a pool of slot size one whose slot 0 is free and whose
    slot 1 holds 9 for some other particle. *)
Definition shrink_old : PropertyPool := mkPool 2 1 [5; 6]%Z [].
Definition shrink_new : PropertyPool := mkPool 1 2 [8; 9]%Z [0].
Definition shrink_mem : gmap nat PropertyPool :=
  {[ 0 := shrink_old; 1 := shrink_new ]}.
Definition shrink_p : Particle := mkParticle [1; 2]%Z [3; 4]%Z 7%N (Some 0) (handle 0).

(** The pool of two slots of two doubles at address 0, and at address 7
    an empty pool of slot size one. *)
Definition narrow_pool : PropertyPool := mkPool 1 0 [] [].
Definition narrow_mem : gmap nat PropertyPool :=
  {[ 0 := ex_pool; 7 := narrow_pool ]}.

(** ** The pool: allocation, slots and the free list *)

Lemma allocate_handle pool : (allocate pool).1 = handle (allocated_slot pool).
Proof. unfold allocate, allocated_slot. by destruct (free_list pool). Qed.

Lemma allocate_size pool :
  n_properties_per_slot (allocate pool).2 = n_properties_per_slot pool.
Proof. unfold allocate. by destruct (free_list pool). Qed.

Lemma allocate_wf pool : pool_wf pool → pool_wf (allocate pool).2.
Proof.
  intros [Ha Hf Hn Hs]. unfold allocate.
  destruct (free_list pool) as [|i rest] eqn:E; simpl.
  - split; simpl; [|intros i Hi; by apply elem_of_nil in Hi|constructor|done].
    rewrite length_app, length_replicate, Ha. lia.
  - split; simpl; [done| |by inversion Hn|done].
    intros j Hj. apply Hf. by right.
Qed.

Lemma allocate_not_live pool : pool_wf pool → ¬ live pool (allocated_slot pool).
Proof.
  intros _ [Hlt Hnin]. unfold allocated_slot in *.
  destruct (free_list pool); [lia|]. apply Hnin. by left.
Qed.

Lemma allocate_live pool :
  pool_wf pool → live (allocate pool).2 (allocated_slot pool).
Proof.
  intros [Ha Hf Hn Hs]. unfold allocate, allocated_slot, live.
  destruct (free_list pool) as [|i rest] eqn:E; simpl.
  - split; [lia|]. intros H. by apply elem_of_nil in H.
  - split; [apply Hf; by left|]. by inversion Hn.
Qed.

Lemma allocate_keeps_live pool i : live pool i → live (allocate pool).2 i.
Proof.
  intros [Hlt Hnin]. unfold allocate, live.
  destruct (free_list pool) as [|j rest] eqn:E; simpl.
  - split; [lia|]. intros H. by apply elem_of_nil in H.
  - split; [done|]. intros H. apply Hnin. by right.
Qed.

Lemma slot_in_arena pool i :
  pool_wf pool → i < n_slots pool →
  slot_begin pool i + n_properties_per_slot pool ≤ length (arena pool).
Proof. intros [Ha _ _ _] Hi. unfold slot_begin. rewrite Ha. nia. Qed.

Lemma slot_values_Some pool i :
  pool_wf pool → i < n_slots pool →
  ∃ l, slot_values pool i = Some l ∧ length l = n_properties_per_slot pool.
Proof.
  intros Hwf Hi. pose proof (slot_in_arena pool i Hwf Hi) as Hr.
  unfold slot_values. rewrite sublist_lookup_Some by done.
  eexists; split; [done|]. rewrite length_take, length_drop. lia.
Qed.

Lemma allocate_slot_values pool i :
  pool_wf pool → i < n_slots pool →
  slot_values (allocate pool).2 i = slot_values pool i.
Proof.
  intros Hwf Hi. pose proof (slot_in_arena pool i Hwf Hi) as Hr.
  unfold slot_values, slot_begin in *. unfold allocate.
  destruct (free_list pool); simpl; [|done].
  rewrite !sublist_lookup_Some by (rewrite ?length_app; lia).
  f_equal. rewrite drop_app_le by lia. rewrite take_app_le; [done|].
  rewrite length_drop. lia.
Qed.

Lemma allocated_slot_lt pool :
  pool_wf pool → allocated_slot pool < n_slots (allocate pool).2.
Proof. intros H. by destruct (allocate_live pool H). Qed.

Lemma written_wf pool b l :
  pool_wf pool → b + length l ≤ length (arena pool) → pool_wf (written pool b l).
Proof.
  intros [Ha Hf Hn Hs] Hr. split; simpl; try done.
  unfold sublist_alter. rewrite !length_app, length_take, length_drop. lia.
Qed.

(** A write of a whole slot is read back from that slot. *)
Lemma slot_values_written_same pool j l :
  pool_wf pool → j < n_slots pool → length l = n_properties_per_slot pool →
  slot_values (written pool (slot_begin pool j) l) j = Some l.
Proof.
  intros Hwf Hj Hl. pose proof (slot_in_arena pool j Hwf Hj) as Hr.
  destruct (slot_values_Some pool j Hwf Hj) as (k & Hk & _).
  unfold slot_values in *. simpl. unfold slot_begin in *. simpl.
  rewrite Hl.
  rewrite (sublist_lookup_alter _ _ _ _ k) by done. by rewrite Hk.
Qed.

(** A write of a whole slot leaves the other slots as they were. *)
Lemma slot_values_written_other pool i j l :
  pool_wf pool → j < n_slots pool → length l = n_properties_per_slot pool →
  i ≠ j →
  slot_values (written pool (slot_begin pool j) l) i = slot_values pool i.
Proof.
  intros Hwf Hj Hl Hij.
  destruct (slot_values_Some pool j Hwf Hj) as (k & Hk & _).
  unfold slot_values in *. simpl. unfold slot_begin in *. simpl.
  rewrite Hl.
  apply (sublist_lookup_alter_ne _ _ _ _ _ k); [done|done|nia].
Qed.

(** ** Running the computations *)

Ltac run :=
  repeat (progress (unfold bind, ret, raise, Assert, get_this, put_this,
                    modify_this, deref, store, ar_write; simpl)).

Lemma has_properties_true p :
  has_properties p = true ↔
  ∃ a i, property_pool p = Some a ∧ properties p = handle i.
Proof.
  unfold has_properties. destruct (property_pool p), (properties p); simpl;
    split; try discriminate; eauto; intros (a & i & ? & ?); discriminate.
Qed.

Lemma has_properties_false p :
  has_properties p = false ↔
  property_pool p = None ∨ properties p = invalid_handle.
Proof.
  unfold has_properties. destruct (property_pool p), (properties p); simpl;
    split; try discriminate; eauto; intros [?|?]; discriminate.
Qed.

Lemma get_properties_const_owned s a i pool :
  property_pool (this s) = Some a → properties (this s) = handle i →
  pools s !! a = Some pool →
  get_properties_const s =
    (Ok (mkView a (slot_begin pool i) (n_properties_per_slot pool)), s).
Proof.
  intros Ha Hi Hp. unfold get_properties_const, pool_get_properties. run.
  unfold has_properties. rewrite Ha, Hi. simpl. run. by rewrite Hp.
Qed.

Lemma get_properties_owned s a i pool :
  property_pool (this s) = Some a → properties (this s) = handle i →
  pools s !! a = Some pool →
  get_properties s =
    (Ok (mkView a (slot_begin pool i) (n_properties_per_slot pool)), s).
Proof.
  intros Ha Hi Hp. unfold get_properties, pool_get_properties. run.
  rewrite Ha, Hi. simpl. run. by rewrite Hi, Hp.
Qed.

Lemma get_properties_lazy s a pool :
  property_pool (this s) = Some a → properties (this s) = invalid_handle →
  pools s !! a = Some pool →
  get_properties s =
    (Ok (mkView a (slot_begin pool (allocated_slot pool))
                (n_properties_per_slot pool)),
     mkState (with_properties (handle (allocated_slot pool)) (this s))
             (<[a := (allocate pool).2]> (pools s)) (archive s)).
Proof.
  intros Ha Hi Hp.
  unfold get_properties, pool_get_properties, allocate_properties_array. run.
  rewrite Ha, Hi. simpl. run. rewrite Hp. simpl.
  rewrite lookup_insert_eq, allocate_handle. simpl.
  unfold slot_begin. by rewrite allocate_size.
Qed.

(** C1.  For a particle with a bound pool, [has_properties] holds exactly
    when the const [get_properties] returns a view without raising; with
    no pool bound and no properties both overloads of [get_properties]
    raise [ExcInternalError]; the mutable overload on a particle with a bound pool and no
    allocation takes a slot from the pool instead of raising, and the
    particle has properties afterwards. *)
Theorem get_properties_iff_has_properties :
  (∀ s a, property_pool (this s) = Some a → is_Some (pools s !! a) →
     has_properties (this s) = true ↔
     ∃ v, get_properties_const s = (Ok v, s))
  ∧ (∀ s, property_pool (this s) = None →
          properties (this s) = invalid_handle →
     get_properties_const s = (Raise ExcInternalError, s) ∧
     get_properties s = (Raise ExcInternalError, s))
  ∧ (∀ s a pool, property_pool (this s) = Some a →
                 properties (this s) = invalid_handle →
                 pools s !! a = Some pool →
     has_properties (this s) = false ∧
     ∃ v s', get_properties s = (Ok v, s') ∧
       properties (this s') = (allocate pool).1 ∧
       pools s' !! a = Some (allocate pool).2 ∧
       av_size v = n_properties_per_slot pool ∧
       has_properties (this s') = true).
Proof.
  split; [|split].
  - intros s a Ha [pool Hp]. split.
    + intros H. apply has_properties_true in H as (a' & i & Ha' & Hi).
      rewrite Ha in Ha'. injection Ha' as <-.
      eexists. by apply (get_properties_const_owned s a i pool).
    + intros [v Hv]. unfold get_properties_const in Hv. revert Hv. run.
      by destruct (has_properties (this s)).
  - intros s Ha Hi. split.
    + unfold get_properties_const. run. unfold has_properties.
      by rewrite Ha.
    + unfold get_properties. run. by rewrite Ha.
  - intros s a pool Ha Hi Hp. split.
    + apply has_properties_false. by right.
    + do 2 eexists. split; [by apply get_properties_lazy|].
      repeat split.
      * by rewrite allocate_handle.
      * apply lookup_insert_eq.
      * apply has_properties_true. by exists a, (allocated_slot pool).
Qed.

(** ** Archives *)

Lemma to_unsigned_int_small n :
  (N.of_nat n < 2 ^ 32)%N → to_unsigned_int n = N.of_nat n.
Proof. intros H. unfold to_unsigned_int. by apply N.mod_small. Qed.

Lemma owns_values p mem a i pool :
  owns p mem a i pool →
  ∃ l, property_values p mem = Some l ∧ slot_values pool i = Some l ∧
       length l = n_properties_per_slot pool ∧
       property_count p mem = n_properties_per_slot pool.
Proof.
  intros (Ha & Hi & Hp & Hwf & Hlt).
  destruct (slot_values_Some pool i Hwf Hlt) as (l & Hl & Hlen).
  exists l. unfold property_values, property_count.
  rewrite Ha, Hi, Hp. simpl. by rewrite Hl.
Qed.

Lemma read_doubles_slot s a i pool l :
  pools s !! a = Some pool → slot_values pool i = Some l →
  read_doubles (mkView a (slot_begin pool i) (n_properties_per_slot pool))
               (n_properties_per_slot pool) s = (Ok l, s).
Proof.
  intros Hp Hl. unfold read_doubles. run. rewrite Hp.
  unfold slot_values in Hl. by rewrite Hl.
Qed.

Lemma no_properties_values p mem :
  has_properties p = false →
  property_values p mem = None ∧ property_count p mem = 0.
Proof.
  intros H. apply has_properties_false in H.
  unfold property_values, property_count.
  destruct H as [-> | ->]; [done|]. by destruct (property_pool p).
Qed.

(** What [save] appends for a particle in a given memory. *)
Lemma save_run s :
  particle_wf (this s) (pools s) →
  save s =
    (Ok tt,
     mkState (this s) (pools s)
       (archive s ++
        header (location (this s)) (reference_location (this s))
               (id (this s))
               (N.of_nat (property_count (this s) (pools s))) ++
        (PDouble <$> default [] (property_values (this s) (pools s))))).
Proof.
  intros Hwf. unfold header. destruct (has_properties (this s)) eqn:Hhas.
  - destruct (Hwf Hhas) as (a & i & pool & Hown).
    destruct (owns_values _ _ _ _ _ Hown) as (l & Hv & Hsl & Hlen & Hcnt).
    destruct Hown as (Ha & Hi & Hp & Hpw & Hlt).
    rewrite Hv, Hcnt. simpl default.
    unfold save. unfold bind at 1. unfold get_this at 1.
    fold (has_properties (this s)). rewrite Hhas.
    unfold bind at 1. unfold bind at 1.
    rewrite (get_properties_const_owned s a i pool) by done.
    unfold ret at 1. simpl av_size.
    rewrite to_unsigned_int_small by apply Hpw.
    run. rewrite <- !(assoc_L (++)). simpl.
    destruct (n_properties_per_slot pool) as [|n] eqn:En.
    + simpl. destruct l; [|done]. simpl. by destruct s.
    + rewrite bool_decide_eq_true_2 by lia.
      set (s1 := mkState _ _ _).
      rewrite (get_properties_const_owned s1 a i pool) by done.
      rewrite Nat2N.id, En, <- En.
      rewrite (read_doubles_slot s1 a i pool l) by done.
      subst s1. simpl. rewrite En, <- !(assoc_L (++)). done.
  - destruct (no_properties_values _ (pools s) Hhas) as [-> ->].
    unfold save. unfold bind at 1. unfold get_this at 1.
    fold (has_properties (this s)). rewrite Hhas. run.
    by rewrite <- !(assoc_L (++)).
Qed.

(** C5.  [save] appends to the archive, in this order: the coordinates of
    the location, those of the reference location, the id, the number of
    properties as an unsigned integer, and that many doubles of property
    data.  The number is the particle's property count when it has
    properties and 0 otherwise, and the array is there exactly when the
    number is positive. *)
Theorem save_layout s :
  particle_wf (this s) (pools s) →
  ∃ (n_properties : nat) (values : list double),
    n_properties = (if has_properties (this s)
                    then property_count (this s) (pools s) else 0) ∧
    length values = n_properties ∧
    (has_properties (this s) = true →
       property_values (this s) (pools s) = Some values) ∧
    (values ≠ [] ↔ 0 < n_properties) ∧
    save s =
      (Ok tt,
       mkState (this s) (pools s)
         (archive s ++
          (PDouble <$> location (this s)) ++
          (PDouble <$> reference_location (this s)) ++
          [PIndex (id (this s)); PUInt (N.of_nat n_properties)] ++
          (PDouble <$> values))).
Proof.
  intros Hwf. rewrite (save_run s Hwf). unfold header.
  destruct (has_properties (this s)) eqn:Hhas.
  - destruct (Hwf Hhas) as (a & i & pool & Hown).
    destruct (owns_values _ _ _ _ _ Hown) as (l & Hv & Hsl & Hlen & Hcnt).
    exists (n_properties_per_slot pool), l. rewrite Hv, Hcnt. simpl.
    repeat split; try done.
    + intros Hl. destruct l; simpl in *; [done|lia].
    + intros H ->. simpl in *. lia.
    + by rewrite <- !(assoc_L (++)).
  - destruct (no_properties_values _ (pools s) Hhas) as [-> ->].
    exists 0, []. simpl. repeat split; try done; try lia.
    by rewrite <- !(assoc_L (++)).
Qed.

Lemma ar_read_doubles_app p mem l rest :
  ar_read_doubles (length l) (mkState p mem ((PDouble <$> l) ++ rest)) =
    (Ok l, mkState p mem rest).
Proof.
  revert p mem rest. induction l as [|d l IH]; intros p mem rest; [done|].
  simpl. unfold bind at 1. unfold ar_read_double, ar_next. run.
  by rewrite IH.
Qed.

Lemma load_header dim spacedim p mem x y i n rest :
  length x = spacedim → length y = dim →
  load dim spacedim (mkState p mem (header x y i n ++ rest)) =
    load_properties n
      (mkState (mkParticle x y i (property_pool p) (properties p)) mem rest).
Proof.
  intros <- <-. unfold load, header. rewrite <- !(assoc_L (++)).
  unfold bind at 1. rewrite ar_read_doubles_app.
  unfold bind at 1. unfold modify_this at 1. run.
  rewrite ar_read_doubles_app.
  unfold ar_read_index, ar_read_unsigned, ar_next, load_properties. run.
  done.
Qed.

(** C9.  A record whose declared property count is zero is loaded without
    error, without allocation and without the size check: the pools are
    untouched and the particle keeps its pool pointer and its handle,
    whatever the slot size of the pool it is bound to. *)
Theorem load_zero_properties dim spacedim p mem x y i rest :
  length x = spacedim → length y = dim →
  load dim spacedim (mkState p mem (header x y i 0 ++ rest)) =
    (Ok tt,
     mkState (mkParticle x y i (property_pool p) (properties p)) mem rest).
Proof. intros Hx Hy. by rewrite load_header. Qed.

(** C4, as amended.  When the declared property count is positive and
    differs from the slot size of the pool the particle is bound to,
    [load] raises the message exception, and the message prints the
    declared count and the pool's count. *)
Theorem load_schema_mismatch dim spacedim p mem a pool x y i n rest :
  length x = spacedim → length y = dim →
  property_pool p = Some a → mem !! a = Some pool →
  (0 < n)%N → N.of_nat (n_properties_per_slot pool) ≠ n →
  ∃ s', load dim spacedim (mkState p mem (header x y i n ++ rest)) =
    (Raise (ExcMessage
       ("This particle was serialized with " +:+ pretty n +:+
        " properties, but the new property handler provides space for " +:+
        pretty (N.of_nat (n_properties_per_slot pool)) +:+
        " properties. Deserializing a particle only works for matching property sizes.")),
     s').
Proof.
  intros Hx Hy Ha Hp Hn Hne. rewrite load_header by done.
  unfold load_properties. rewrite bool_decide_eq_true_2 by done.
  set (s := mkState _ _ _). unfold bind at 1.
  destruct (properties p) as [|k] eqn:Hk.
  - rewrite (get_properties_lazy s a pool) by done. simpl.
    unfold bind at 1. rewrite bool_decide_eq_false_2 by done.
    eexists. reflexivity.
  - rewrite (get_properties_owned s a k pool) by done. simpl.
    unfold bind at 1. rewrite bool_decide_eq_false_2 by done.
    eexists. reflexivity.
Qed.

Lemma with_properties_id p i :
  properties p = handle i → with_properties (handle i) p = p.
Proof. intros <-. by destruct p. Qed.

(** The mutable [get_properties] on a particle bound to a pool: the view
    of the slot it has, or of the one it is given. *)
Lemma get_properties_bound s a pool :
  property_pool (this s) = Some a → pools s !! a = Some pool →
  pool_wf pool → (∀ k, properties (this s) = handle k → k < n_slots pool) →
  ∃ j pool',
    get_properties s =
      (Ok (mkView a (slot_begin pool' j) (n_properties_per_slot pool')),
       mkState (with_properties (handle j) (this s))
               (<[a := pool']> (pools s)) (archive s)) ∧
    pool_wf pool' ∧ j < n_slots pool' ∧
    n_properties_per_slot pool' = n_properties_per_slot pool.
Proof.
  intros Ha Hp Hwf Hk. destruct (properties (this s)) as [|k] eqn:E.
  - exists (allocated_slot pool), (allocate pool).2.
    rewrite (get_properties_lazy s a pool) by done.
    unfold slot_begin. rewrite allocate_size.
    auto using allocate_wf, allocated_slot_lt.
  - exists k, pool. rewrite (get_properties_owned s a k pool) by done.
    rewrite insert_id, with_properties_id by done.
    destruct s; auto.
Qed.

Lemma write_doubles_slot s a pool j l :
  pools s !! a = Some pool → pool_wf pool → j < n_slots pool →
  length l = n_properties_per_slot pool →
  write_doubles (mkView a (slot_begin pool j) (n_properties_per_slot pool)) l s
  = (Ok tt, mkState (this s)
              (<[a := written pool (slot_begin pool j) l]> (pools s))
              (archive s)).
Proof.
  intros Hp Hwf Hj Hl. unfold write_doubles. run. rewrite Hp.
  pose proof (slot_in_arena pool j Hwf Hj).
  rewrite bool_decide_eq_true_2 by lia. done.
Qed.

(** C3.  Saving a particle [P] and loading the stream into a particle
    bound to a pool whose slot size is [P]'s property count gives a
    particle with [P]'s location, reference location and id and with the
    same property values, double for double; the loader consumes exactly
    what was saved.  The values are compared as the list the handle
    designates, empty for a particle without properties. *)
Theorem save_load_roundtrip dim spacedim P mem Q mem2 a2 pool2 rest :
  length (location P) = spacedim →
  length (reference_location P) = dim →
  particle_wf P mem →
  property_pool Q = Some a2 → mem2 !! a2 = Some pool2 → pool_wf pool2 →
  (∀ k, properties Q = handle k → k < n_slots pool2) →
  n_properties_per_slot pool2 = property_count P mem →
  ∃ stream s2,
    save (mkState P mem []) = (Ok tt, mkState P mem stream) ∧
    load dim spacedim (mkState Q mem2 (stream ++ rest)) = (Ok tt, s2) ∧
    archive s2 = rest ∧
    location (this s2) = location P ∧
    reference_location (this s2) = reference_location P ∧
    id (this s2) = id P ∧
    default [] (property_values (this s2) (pools s2)) =
      default [] (property_values P mem) ∧
    (0 < property_count P mem →
       has_properties (this s2) = true ∧
       property_values (this s2) (pools s2) = property_values P mem).
Proof.
  intros Hx Hy HP Ha2 Hp2 Hwf2 HQ Hn.
  pose proof (save_run (mkState P mem []) HP) as Hsave. simpl in Hsave.
  remember (property_count P mem) as n eqn:En.
  remember (default [] (property_values P mem)) as l eqn:El.
  assert (Hl : length l = n).
  { subst l n. destruct (has_properties P) eqn:Hhas.
    - destruct (HP Hhas) as (a & i & pool & Hown).
      destruct (owns_values _ _ _ _ _ Hown) as (l & -> & _ & Hlen & ->).
      done.
    - by destruct (no_properties_values P mem Hhas) as [-> ->]. }
  rewrite Hsave.
  exists (header (location P) (reference_location P) (id P) (N.of_nat n) ++
          (PDouble <$> l)).
  cut (∃ s2,
    load dim spacedim
      (mkState Q mem2
         ((header (location P) (reference_location P) (id P) (N.of_nat n) ++
           (PDouble <$> l)) ++ rest)) = (Ok tt, s2) ∧
    archive s2 = rest ∧
    location (this s2) = location P ∧
    reference_location (this s2) = reference_location P ∧
    id (this s2) = id P ∧
    default [] (property_values (this s2) (pools s2)) = l ∧
    (0 < n → has_properties (this s2) = true ∧
             property_values (this s2) (pools s2) = property_values P mem)).
  { intros (s2 & H). exists s2. by split. }
  clear Hsave.
  rewrite <- (assoc_L (++)), load_header by done.
  unfold load_properties. destruct n as [|n'].
  - destruct l; [|done]. eexists. split; [done|]. simpl.
    split; [done|]. repeat split; try done; try lia.
    unfold property_values. simpl. rewrite Ha2.
    destruct (properties Q) as [|k] eqn:Ek; [done|]. simpl.
    rewrite Hp2. simpl.
    destruct (slot_values_Some pool2 k Hwf2 (HQ k eq_refl)) as (l2 & -> & H2).
    simpl. rewrite Hn in H2. by destruct l2.
  - rewrite bool_decide_eq_true_2 by lia.
    set (s := mkState _ mem2 _).
    destruct (get_properties_bound s a2 pool2) as (j & pool' & Hg & Hw' & Hj & Hn');
      [done..|].
    unfold bind at 1. rewrite Hg. simpl av_size. rewrite Hn', Hn.
    rewrite bool_decide_eq_true_2 by done. unfold Assert, ret at 1.
    unfold bind at 1. set (s1 := mkState _ _ _).
    assert (Hp1 : pools s1 !! a2 = Some pool') by apply lookup_insert_eq.
    unfold bind at 1.
    rewrite (get_properties_owned s1 a2 j pool') by done.
    unfold bind at 1. subst s1. simpl archive.
    rewrite Nat2N.id, <- Hl, ar_read_doubles_app.
    set (s1 := mkState _ _ _).
    replace (length l) with (n_properties_per_slot pool') by lia.
    rewrite (write_doubles_slot s1 a2 pool' j l) by (done || lia).
    eexists. split; [done|]. split; [done|]. simpl.
    repeat split; try done.
    + unfold property_values. simpl. rewrite Ha2. simpl.
      rewrite lookup_insert_eq. simpl.
      rewrite slot_values_written_same by (done || lia). done.
    + apply has_properties_true. by exists a2, j.
    + unfold property_values at 1. simpl. rewrite Ha2. simpl.
      rewrite lookup_insert_eq. simpl.
      rewrite slot_values_written_same by (done || lia).
      destruct (property_values P mem) eqn:E; [by subst l|].
      subst l. simpl in Hl. lia.
Qed.

(** ** Stepping through a computation *)

Lemma bind_Ok {A B} (m : M A) (k : A → M B) s a s' :
  m s = (Ok a, s') → bind m k s = k a s'.
Proof. intros H. unfold bind. by rewrite H. Qed.

Lemma bind_assoc {A B C} (m : M A) (f : A → M B) (g : B → M C) s :
  bind (bind m f) g s = bind m (λ x, bind (f x) g) s.
Proof. unfold bind. destruct (m s) as [[a|e] s']; done. Qed.

Lemma allocate_properties_array_run s a pool :
  pools s !! a = Some pool →
  allocate_properties_array a s =
    (Ok (handle (allocated_slot pool)),
     mkState (this s) (<[a := (allocate pool).2]> (pools s)) (archive s)).
Proof.
  intros Hp. unfold allocate_properties_array. run.
  by rewrite Hp, allocate_handle.
Qed.

Lemma pool_get_properties_run s a pool i :
  pools s !! a = Some pool →
  pool_get_properties a (handle i) s =
    (Ok (mkView a (slot_begin pool i) (n_properties_per_slot pool)), s).
Proof. intros Hp. unfold pool_get_properties. run. by rewrite Hp. Qed.

Lemma read_doubles_run s v n pool l :
  pools s !! av_pool v = Some pool →
  sublist_lookup (av_data v) n (arena pool) = Some l →
  read_doubles v n s = (Ok l, s).
Proof. intros Hp Hl. unfold read_doubles. run. by rewrite Hp, Hl. Qed.

Lemma write_doubles_run s v pool l :
  pools s !! av_pool v = Some pool →
  av_data v + length l ≤ length (arena pool) →
  write_doubles v l s =
    (Ok tt, mkState (this s)
              (<[av_pool v := written pool (av_data v) l]> (pools s))
              (archive s)).
Proof.
  intros Hp Hr. unfold write_doubles. run. rewrite Hp.
  by rewrite bool_decide_eq_true_2.
Qed.

Lemma deallocate_properties_array_run s a pool i :
  pools s !! a = Some pool →
  deallocate_properties_array a (handle i) s =
    if bool_decide (i ∈ free_list pool) then (Raise ExcHandleReleased, s)
    else (Ok tt, mkState (this s) (<[a := released pool i]> (pools s))
                         (archive s)).
Proof.
  intros Hp. unfold deallocate_properties_array. run. rewrite Hp.
  by destruct (bool_decide (i ∈ free_list pool)).
Qed.

(** The first [length l] doubles of a slot after [l] was stored at its
    start. *)
Lemma written_prefix pool j l :
  pool_wf pool → j < n_slots pool → length l ≤ n_properties_per_slot pool →
  sublist_lookup (slot_begin pool j) (length l)
                 (arena (written pool (slot_begin pool j) l)) = Some l.
Proof.
  intros Hwf Hj Hl. pose proof (slot_in_arena pool j Hwf Hj) as Hr. simpl.
  assert (is_Some (sublist_lookup (slot_begin pool j) (length l) (arena pool)))
    as [k Hk].
  { rewrite sublist_lookup_Some by lia. eauto. }
  rewrite (sublist_lookup_alter _ _ _ _ k) by done. by rewrite Hk.
Qed.

Lemma lookup_behind (mem : gmap nat PropertyPool) a new pool x :
  mem !! a = Some pool → <[new := x]> mem !! a = Some (pool_behind a new pool x).
Proof.
  intros H. unfold pool_behind. destruct (decide (a = new)) as [->|].
  - apply lookup_insert_eq.
  - by rewrite lookup_insert_ne.
Qed.

(** [set_property_pool] on a particle that owns the slot [i] of the pool
    at [a]: allocation and copy in the target pool, then the release of
    [i], which raises when [i] is on the free list at that moment, then
    the rebinding. *)
Lemma set_property_pool_owned p mem ar a i pool new npool :
  owns p mem a i pool → mem !! new = Some npool → pool_wf npool →
  n_properties_per_slot pool ≤ n_properties_per_slot npool →
  ∃ l, slot_values pool i = Some l ∧
    length l = n_properties_per_slot pool ∧
    let npool2 := pool_with_copy npool l in
    let pool2 := pool_behind a new pool npool2 in
    set_property_pool new (mkState p mem ar) =
      if bool_decide (i ∈ free_list pool2)
      then (Raise ExcHandleReleased, mkState p (<[new := npool2]> mem) ar)
      else (Ok tt,
            mkState (mkParticle (location p) (reference_location p) (id p)
                                (Some new) (handle (allocated_slot npool)))
                    (<[a := released pool2 i]> (<[new := npool2]> mem)) ar).
Proof.
  intros (Ha & Hi & Hp & Hwf & Hlt) Hnew Hnwf Hle.
  destruct (slot_values_Some pool i Hwf Hlt) as (l & Hl & Hlen).
  exists l. split; [done|]. split; [done|]. intros npool2 pool2.
  set (s := mkState p mem ar).
  set (j := allocated_slot npool). set (npool1 := (allocate npool).2).
  set (s1 := mkState p (<[new := npool1]> mem) ar).
  set (pool1 := pool_behind a new pool npool1).
  assert (Hp1 : pools s1 !! a = Some pool1) by by apply lookup_behind.
  assert (Hn1 : n_properties_per_slot pool1 = n_properties_per_slot pool).
  { subst pool1. unfold pool_behind. destruct (decide (a = new)) as [->|]; [|done].
    subst npool1. rewrite allocate_size. congruence. }
  assert (Hl1 : slot_values pool1 i = Some l).
  { subst pool1. unfold pool_behind. destruct (decide (a = new)) as [->|]; [|done].
    assert (pool = npool) as -> by congruence.
    subst npool1. by rewrite allocate_slot_values. }
  unfold set_property_pool.
  rewrite (bind_Ok get_this _ s p s) by done.
  rewrite Ha, Hi. simpl (_ && _). cbv iota.
  rewrite !bind_assoc.
  rewrite (bind_Ok _ _ _ _ _ (allocate_properties_array_run s new npool Hnew)).
  fold j npool1 s1.
  rewrite !bind_assoc.
  rewrite (bind_Ok _ _ _ _ _ (get_properties_owned s1 a i pool1 Ha Hi Hp1)).
  rewrite !bind_assoc.
  assert (Hnp1 : pools s1 !! new = Some npool1) by apply lookup_insert_eq.
  rewrite (bind_Ok _ _ _ _ _ (pool_get_properties_run s1 new npool1 j Hnp1)).
  rewrite !bind_assoc. simpl av_size.
  rewrite (bind_Ok _ _ _ _ _
             (read_doubles_run s1 (mkView a (slot_begin pool1 i) _) _ pool1 l
                               Hp1 Hl1)).
  rewrite !bind_assoc.
  assert (Hr : slot_begin npool1 j + length l ≤ length (arena npool1)).
  { pose proof (slot_in_arena npool1 j (allocate_wf _ Hnwf)
                              (allocated_slot_lt _ Hnwf)) as H.
    subst npool1. rewrite allocate_size in H. lia. }
  rewrite (bind_Ok _ _ _ _ _
             (write_doubles_run s1 (mkView new (slot_begin npool1 j) _) npool1 l
                                Hnp1 Hr)).
  simpl pools. simpl this. simpl archive. simpl av_pool. simpl av_data.
  rewrite insert_insert_eq.
  assert (Hsb : slot_begin npool1 j = slot_begin npool j).
  { unfold slot_begin. subst npool1. by rewrite allocate_size. }
  rewrite Hsb. fold (pool_with_copy npool l). fold npool2.
  set (s2 := mkState p (<[new := npool2]> mem) ar).
  rewrite (bind_Ok (ret _) _ s2 _ s2) by done.
  rewrite (bind_Ok get_this _ s2 p s2) by done.
  rewrite Ha, Hi. simpl (_ && _). cbv iota.
  assert (Hp2 : pools s2 !! a = Some pool2) by by apply lookup_behind.
  rewrite ?bind_assoc. unfold bind at 1.
  rewrite (deallocate_properties_array_run s2 a pool2 i Hp2).
  destruct (bool_decide (i ∈ free_list pool2)); [done|].
  run. done.
Qed.

Lemma pool_with_copy_wf npool l :
  pool_wf npool → length l ≤ n_properties_per_slot npool →
  pool_wf (pool_with_copy npool l).
Proof.
  intros Hwf Hl. unfold pool_with_copy. apply written_wf.
  - by apply allocate_wf.
  - pose proof (slot_in_arena _ _ (allocate_wf _ Hwf) (allocated_slot_lt _ Hwf)).
    unfold slot_begin in *. rewrite allocate_size in *. lia.
Qed.

Lemma pool_with_copy_prefix npool l :
  pool_wf npool → length l ≤ n_properties_per_slot npool →
  sublist_lookup (slot_begin npool (allocated_slot npool)) (length l)
                 (arena (pool_with_copy npool l)) = Some l.
Proof.
  intros Hwf Hl. unfold pool_with_copy.
  replace (slot_begin npool (allocated_slot npool))
    with (slot_begin (allocate npool).2 (allocated_slot npool))
    by (unfold slot_begin; by rewrite allocate_size).
  apply written_prefix;
    [by apply allocate_wf|by apply allocated_slot_lt|by rewrite allocate_size].
Qed.

(** The copy is read back from the slot the target pool handed out. *)
Lemma pool_with_copy_same npool l :
  pool_wf npool → length l = n_properties_per_slot npool →
  slot_values (pool_with_copy npool l) (allocated_slot npool) = Some l.
Proof.
  intros Hwf Hl. unfold slot_values.
  replace (n_properties_per_slot (pool_with_copy npool l)) with (length l)
    by (simpl; by rewrite allocate_size).
  replace (slot_begin (pool_with_copy npool l) (allocated_slot npool))
    with (slot_begin npool (allocated_slot npool))
    by (unfold slot_begin; simpl; by rewrite allocate_size).
  apply pool_with_copy_prefix; [done|lia].
Qed.

(** The copy leaves every other slot of the target pool as it was. *)
Lemma pool_with_copy_other npool l i :
  pool_wf npool → length l = n_properties_per_slot npool →
  i < n_slots npool → i ≠ allocated_slot npool →
  slot_values (pool_with_copy npool l) i = slot_values npool i.
Proof.
  intros Hwf Hl Hi Hne. unfold pool_with_copy.
  replace (slot_begin npool (allocated_slot npool))
    with (slot_begin (allocate npool).2 (allocated_slot npool))
    by (unfold slot_begin; by rewrite allocate_size).
  rewrite slot_values_written_other;
    [by apply allocate_slot_values|by apply allocate_wf
    |by apply allocated_slot_lt|by rewrite allocate_size|done].
Qed.

(** The slot the particle came with still holds its values once the copy
    is made, also when both pools are one. *)
Lemma pool_behind_values a new (mem : gmap nat PropertyPool) pool npool i l :
  mem !! a = Some pool → mem !! new = Some npool →
  pool_wf pool → pool_wf npool → i < n_slots pool →
  slot_values pool i = Some l → length l = n_properties_per_slot pool →
  slot_values (pool_behind a new pool (pool_with_copy npool l)) i = Some l.
Proof.
  intros Hp Hnew Hwf Hnwf Hi Hl Hlen. unfold pool_behind.
  destruct (decide (a = new)) as [->|]; [|done].
  assert (pool = npool) as -> by congruence.
  destruct (decide (i = allocated_slot npool)) as [->|Hne].
  - by apply pool_with_copy_same.
  - by rewrite pool_with_copy_other.
Qed.

Lemma pool_with_copy_size npool l :
  n_properties_per_slot (pool_with_copy npool l) = n_properties_per_slot npool.
Proof. simpl. apply allocate_size. Qed.

Lemma pool_with_copy_free npool l :
  free_list (pool_with_copy npool l) = free_list (allocate npool).2.
Proof. done. Qed.

Lemma allocate_free_subset npool i :
  i ∈ free_list (allocate npool).2 → i ∈ free_list npool.
Proof.
  unfold allocate. destruct (free_list npool); simpl; [done|]. by right.
Qed.

(** A live handle is not on the free list when the release is reached. *)
Lemma pool_behind_not_free a new (mem : gmap nat PropertyPool) pool npool i l :
  mem !! a = Some pool → mem !! new = Some npool → live pool i →
  i ∉ free_list (pool_behind a new pool (pool_with_copy npool l)).
Proof.
  intros Hp Hnew [_ Hnin]. unfold pool_behind.
  destruct (decide (a = new)) as [->|]; [|done].
  assert (pool = npool) as -> by congruence.
  rewrite pool_with_copy_free. intros H. by apply Hnin, allocate_free_subset.
Qed.

(** The target pool as the rebound particle finds it. *)
Lemma lookup_rebound (mem : gmap nat PropertyPool) a new pool npool2 i :
  ∃ npool3,
    <[a := released (pool_behind a new pool npool2) i]>
      (<[new := npool2]> mem) !! new = Some npool3 ∧
    n_properties_per_slot npool3 = n_properties_per_slot npool2 ∧
    arena npool3 = arena npool2 ∧
    (∀ j, (a = new → j ≠ i) → live npool2 j → live npool3 j).
Proof.
  unfold pool_behind. destruct (decide (a = new)) as [->|Hne].
  - exists (released npool2 i). rewrite lookup_insert_eq.
    do 3 (split; [done|]). intros j Hj [Hlt Hnin]. split; [done|].
    simpl. intros Hin. apply elem_of_cons in Hin as [?|?]; [|done].
    by apply Hj.
  - exists npool2. rewrite lookup_insert_ne, lookup_insert_eq by done.
    done.
Qed.

(** ** set_property_pool *)

(** C2, as amended.  On a particle that owns properties, with a target
    pool of the same slot size: the call either returns, and then the
    particle is bound to the target pool with the handle that pool
    handed out, its property values are the ones it had, and its old
    slot is on the old pool's free list; or it raises at the release of
    the old handle, and then the copy already sits in the target pool
    while the particle still has its old pool, its old handle and its old
    values.  With a live handle the call returns. *)
Theorem set_property_pool_atomic p mem ar a i pool new npool :
  owns p mem a i pool → mem !! new = Some npool → pool_wf npool →
  n_properties_per_slot npool = n_properties_per_slot pool →
  ∃ l, property_values p mem = Some l ∧
    match set_property_pool new (mkState p mem ar) with
    | (Ok _, s') =>
        location (this s') = location p ∧
        reference_location (this s') = reference_location p ∧
        id (this s') = id p ∧
        property_pool (this s') = Some new ∧
        properties (this s') = (allocate npool).1 ∧
        property_values (this s') (pools s') = Some l ∧
        ∃ pool', pools s' !! a = Some pool' ∧ i ∈ free_list pool'
    | (Raise e, s') =>
        e = ExcHandleReleased ∧
        this s' = p ∧
        property_values p (pools s') = Some l ∧
        ∃ npool', pools s' !! new = Some npool' ∧
                  slot_values npool' (allocated_slot npool) = Some l
    end ∧
    (live pool i →
     ∃ s', set_property_pool new (mkState p mem ar) = (Ok tt, s')).
Proof.
  intros Hown Hnew Hnwf Hn.
  destruct (owns_values _ _ _ _ _ Hown) as (l' & Hv & Hsl & _ & _).
  destruct (set_property_pool_owned p mem ar a i pool new npool)
    as (l & Hl & Hlen & Hrun); [done|done|done|lia|].
  assert (l' = l) as -> by congruence.
  destruct Hown as (Ha & Hi & Hp & Hwf & Hlt).
  exists l. split; [done|]. cbv zeta in Hrun. rewrite Hrun.
  assert (Hsame : slot_values (pool_with_copy npool l) (allocated_slot npool)
                  = Some l) by (apply pool_with_copy_same; [done|lia]).
  assert (Hold : slot_values (pool_behind a new pool (pool_with_copy npool l)) i
                 = Some l) by by apply (pool_behind_values a new mem).
  split.
  - destruct (bool_decide _) eqn:E.
    + split; [done|]. split; [done|]. split.
      * unfold property_values. rewrite Ha, Hi. simpl.
        by rewrite (lookup_behind mem a new pool _ Hp).
      * exists (pool_with_copy npool l). split; [apply lookup_insert_eq|done].
    + simpl. do 4 (split; [done|]). split; [by rewrite allocate_handle|].
      split.
      * unfold property_values. simpl.
        destruct (lookup_rebound mem a new pool (pool_with_copy npool l) i)
          as (npool3 & -> & Hn3 & Ha3 & _). simpl.
        unfold slot_values, slot_begin in *. by rewrite Hn3, Ha3.
      * eexists. split; [apply lookup_insert_eq|]. simpl. by left.
  - intros Hlive.
    rewrite bool_decide_eq_false_2
      by by apply (pool_behind_not_free a new mem).
    by eexists.
Qed.

Lemma set_property_pool_no_properties p mem ar new :
  has_properties p = false →
  set_property_pool new (mkState p mem ar) =
    (Ok tt,
     mkState (mkParticle (location p) (reference_location p) (id p)
                         (Some new) invalid_handle) mem ar).
Proof.
  intros H. unfold set_property_pool. run.
  fold (has_properties p). rewrite H. simpl.
  fold (has_properties p). by rewrite H.
Qed.

(** C10, as amended.  On a particle that owns a live slot, and for a
    target pool whose slots are not smaller than the particle's,
    [set_property_pool] takes a slot from the target pool, one that was
    not live there, and copies the values to the start of it, whichever
    pool the target is; when the target is the pool the particle is
    already bound to, the handle changes and the property values stay, as
    they do for every target pool of the same slot size.  On a particle
    without properties only the pool pointer is set: the handle is
    invalid and no pool is touched. *)
Theorem set_property_pool_reallocates :
  (∀ p mem ar a i pool new npool,
     owns p mem a i pool → live pool i →
     mem !! new = Some npool → pool_wf npool →
     n_properties_per_slot pool ≤ n_properties_per_slot npool →
     ∃ l s' npool',
       property_values p mem = Some l ∧
       set_property_pool new (mkState p mem ar) = (Ok tt, s') ∧
       property_pool (this s') = Some new ∧
       properties (this s') = (allocate npool).1 ∧
       properties (this s') = handle (allocated_slot npool) ∧
       ¬ live npool (allocated_slot npool) ∧
       pools s' !! new = Some npool' ∧
       live npool' (allocated_slot npool) ∧
       sublist_lookup (slot_begin npool' (allocated_slot npool)) (length l)
                      (arena npool') = Some l ∧
       (new = a →
        properties (this s') ≠ properties p ∧
        property_values (this s') (pools s') = Some l) ∧
       (n_properties_per_slot npool = n_properties_per_slot pool →
        property_values (this s') (pools s') = Some l))
  ∧ (∀ p mem ar new,
       has_properties p = false →
       set_property_pool new (mkState p mem ar) =
         (Ok tt,
          mkState (mkParticle (location p) (reference_location p) (id p)
                              (Some new) invalid_handle) mem ar)).
Proof.
  split; [|apply set_property_pool_no_properties].
  intros p mem ar a i pool new npool Hown Hlive Hnew Hnwf Hle.
  destruct (owns_values _ _ _ _ _ Hown) as (l' & Hv & Hsl & _ & _).
  destruct (set_property_pool_owned p mem ar a i pool new npool)
    as (l & Hl & Hlen & Hrun); [done..|].
  assert (l' = l) as -> by congruence.
  destruct Hown as (Ha & Hi & Hp & Hwf & Hlt).
  cbv zeta in Hrun.
  rewrite bool_decide_eq_false_2 in Hrun
    by by apply (pool_behind_not_free a new mem).
  assert (Hfresh : ¬ live npool (allocated_slot npool))
    by by apply allocate_not_live.
  assert (Hne : a = new → allocated_slot npool ≠ i).
  { intros -> E. apply Hfresh. rewrite E.
    by assert (npool = pool) as -> by congruence. }
  destruct (lookup_rebound mem a new pool (pool_with_copy npool l) i)
    as (npool3 & H3 & Hn3 & Ha3 & Hlive3).
  rewrite Hrun. exists l. eexists. exists npool3.
  split; [done|]. split; [done|]. simpl.
  split; [done|]. split; [by rewrite allocate_handle|]. split; [done|].
  split; [done|]. split; [done|].
  assert (Hsame : n_properties_per_slot npool = n_properties_per_slot pool →
                  property_values
                    (mkParticle (location p) (reference_location p) (id p)
                                (Some new) (handle (allocated_slot npool)))
                    (<[a := released (pool_behind a new pool
                                        (pool_with_copy npool l)) i]>
                       (<[new := pool_with_copy npool l]> mem)) = Some l).
  { intros Hn. unfold property_values. simpl. rewrite H3. simpl.
    unfold slot_values, slot_begin. rewrite Hn3, Ha3.
    apply (pool_with_copy_same npool l); [done|lia]. }
  split; [|split; [|split; [|done]]].
  - apply Hlive3; [done|].
    change (live (allocate npool).2 (allocated_slot npool)).
    by apply allocate_live.
  - unfold slot_begin. rewrite Hn3, Ha3, pool_with_copy_size.
    apply pool_with_copy_prefix; [done|lia].
  - intros ->. split.
    + rewrite Hi. intros [= E]. by apply Hne.
    + apply Hsame. by assert (npool = pool) as -> by congruence.
Qed.

(** ** Writing through a view *)

Lemma sublist_lookup_insert_out {A} (l : list A) b n x d :
  x < b ∨ b + n ≤ x →
  sublist_lookup b n (<[x := d]> l) = sublist_lookup b n l.
Proof.
  intros Hx. unfold sublist_lookup. rewrite length_insert.
  destruct (decide (b + n ≤ length l)); simplify_option_eq; [|done].
  f_equal. destruct Hx.
  - rewrite drop_insert_lt by lia. done.
  - rewrite drop_insert_ge by lia. rewrite take_insert_ge by lia. done.
Qed.

Lemma sublist_lookup_insert_in {A} (l : list A) b n k d :
  k < n →
  sublist_lookup b n (<[b + k := d]> l) = (<[k := d]>) <$> sublist_lookup b n l.
Proof.
  intros Hk. unfold sublist_lookup. rewrite length_insert.
  destruct (decide (b + n ≤ length l)); simplify_option_eq; [|done].
  f_equal. rewrite drop_insert_ge by lia. rewrite take_insert_lt by lia.
  f_equal. f_equal. lia.
Qed.

Lemma poked_wf pool x d : pool_wf pool → pool_wf (poked pool x d).
Proof.
  intros [Ha Hf Hn Hs]. split; simpl; try done. by rewrite length_insert.
Qed.

Lemma slot_values_poked_other pool i j k d :
  k < n_properties_per_slot pool → i ≠ j →
  slot_values (poked pool (slot_begin pool j + k) d) i = slot_values pool i.
Proof.
  intros Hk Hij. unfold slot_values, slot_begin. simpl.
  apply sublist_lookup_insert_out. nia.
Qed.

Lemma slot_values_poked_same pool j k d :
  k < n_properties_per_slot pool →
  slot_values (poked pool (slot_begin pool j + k) d) j =
    (<[k := d]>) <$> slot_values pool j.
Proof.
  intros Hk. unfold slot_values, slot_begin. simpl.
  by apply sublist_lookup_insert_in.
Qed.

(** One assignment through the view of a particle that owns slot [j]:
    the particle and the bookkeeping of its pool stay, every other slot
    keeps its values, and slot [j] changes at index [k] when the
    assignment is in range. *)
Lemma write_property_run s a j pool k d :
  property_pool (this s) = Some a → properties (this s) = handle j →
  pools s !! a = Some pool → pool_wf pool → j < n_slots pool →
  ∃ r pool',
    write_property k d s =
      (r, mkState (this s) (<[a := pool']> (pools s)) (archive s)) ∧
    pool_wf pool' ∧ n_slots pool' = n_slots pool ∧
    n_properties_per_slot pool' = n_properties_per_slot pool ∧
    free_list pool' = free_list pool ∧
    (∀ i, i ≠ j → slot_values pool' i = slot_values pool i) ∧
    (k < n_properties_per_slot pool →
     r = Ok tt ∧ slot_values pool' j = (<[k := d]>) <$> slot_values pool j).
Proof.
  intros Ha Hj Hp Hwf Hlt. unfold write_property.
  rewrite (bind_Ok _ _ _ _ _ (get_properties_owned s a j pool Ha Hj Hp)).
  unfold write_double. simpl.
  destruct (decide (k < n_properties_per_slot pool)) as [Hk|Hk].
  - rewrite bool_decide_eq_true_2 by done. run. rewrite Hp.
    pose proof (slot_in_arena pool j Hwf Hlt).
    rewrite bool_decide_eq_true_2 by lia.
    exists (Ok tt), (poked pool (slot_begin pool j + k) d).
    split; [done|]. split; [by apply poked_wf|]. do 3 (split; [done|]).
    split.
    + intros i Hi. by apply slot_values_poked_other.
    + intros _. split; [done|]. by apply slot_values_poked_same.
  - rewrite bool_decide_eq_false_2 by done.
    exists (Raise ExcIndexRange), pool. rewrite insert_id by done.
    split; [by destruct s|]. do 4 (split; [done|]). split; [done|]. lia.
Qed.

Lemma write_all_run ws s a j pool :
  property_pool (this s) = Some a → properties (this s) = handle j →
  pools s !! a = Some pool → pool_wf pool → j < n_slots pool →
  ∃ r pool',
    write_all ws s =
      (r, mkState (this s) (<[a := pool']> (pools s)) (archive s)) ∧
    pool_wf pool' ∧ n_slots pool' = n_slots pool ∧
    n_properties_per_slot pool' = n_properties_per_slot pool ∧
    free_list pool' = free_list pool ∧
    (∀ i, i ≠ j → slot_values pool' i = slot_values pool i).
Proof.
  revert s pool. induction ws as [|[k d] ws IH]; intros s pool Ha Hj Hp Hwf Hlt.
  - exists (Ok tt), pool. rewrite insert_id by done.
    split; [by destruct s|done].
  - destruct (write_property_run s a j pool k d)
      as (r & pool1 & Hrun & Hwf1 & Hs1 & Hn1 & Hf1 & Ho1 & _); [done..|].
    simpl. unfold bind. rewrite Hrun. destruct r as [[]|e].
    + set (s1 := mkState _ _ _).
      destruct (IH s1 pool1) as (r & pool2 & Hrun2 & Hwf2 & Hs2 & Hn2 & Hf2 & Ho2);
        [done|done|apply lookup_insert_eq|done|lia|].
      rewrite Hrun2. exists r, pool2. subst s1. simpl.
      rewrite insert_insert_eq. split; [done|].
      split; [done|]. split; [lia|]. split; [lia|]. split; [congruence|].
      intros i Hi. rewrite Ho2, Ho1; done.
    + by exists (Raise e), pool1.
Qed.

(** ** Copy and move *)

Lemma Particle_copy_owned this0 mem ar P a i pool :
  owns P mem a i pool →
  ∃ l, slot_values pool i = Some l ∧
    length l = n_properties_per_slot pool ∧
    Particle_copy P (mkState this0 mem ar) =
      (Ok tt,
       mkState (mkParticle (location P) (reference_location P) (id P)
                           (Some a) (handle (allocated_slot pool)))
               (<[a := pool_with_copy pool l]> mem) ar).
Proof.
  intros (Ha & Hi & Hp & Hwf & Hlt).
  destruct (slot_values_Some pool i Hwf Hlt) as (l & Hl & Hlen).
  exists l. split; [done|]. split; [done|].
  unfold Particle_copy.
  rewrite (bind_Ok (put_this _) _ _ tt
             (mkState (mkParticle (location P) (reference_location P) (id P)
                                  (property_pool P) invalid_handle) mem ar))
    by done.
  assert (Hhas : has_properties P = true)
    by (apply has_properties_true; eauto).
  rewrite Hhas, Ha. set (s0 := mkState _ mem ar).
  rewrite (bind_Ok _ _ _ _ _ (allocate_properties_array_run s0 a pool Hp)).
  set (j := allocated_slot pool). set (pool1 := (allocate pool).2).
  rewrite (bind_Ok (modify_this _) _ _ tt
             (mkState (mkParticle (location P) (reference_location P) (id P)
                                  (Some a) (handle j))
                      (<[a := pool1]> mem) ar)) by done.
  set (s1 := mkState _ (<[a := pool1]> mem) ar).
  assert (Hp1 : pools s1 !! a = Some pool1) by apply lookup_insert_eq.
  rewrite Hi.
  rewrite (bind_Ok _ _ _ _ _ (pool_get_properties_run s1 a pool1 i Hp1)).
  rewrite (bind_Ok _ _ _ _ _ (pool_get_properties_run s1 a pool1 j Hp1)).
  simpl av_size.
  assert (Hl1 : slot_values pool1 i = Some l)
    by (subst pool1; by rewrite allocate_slot_values).
  rewrite (bind_Ok _ _ _ _ _
             (read_doubles_run s1 (mkView a (slot_begin pool1 i) _) _ pool1 l
                               Hp1 Hl1)).
  assert (Hr : slot_begin pool1 j + length l ≤ length (arena pool1)).
  { pose proof (slot_in_arena pool1 j (allocate_wf _ Hwf)
                              (allocated_slot_lt _ Hwf)) as H.
    subst pool1. rewrite allocate_size in H. lia. }
  rewrite (write_doubles_run s1 (mkView a (slot_begin pool1 j) _) pool1 l
                             Hp1 Hr).
  simpl. rewrite insert_insert_eq.
  assert (Hsb : slot_begin pool1 j = slot_begin pool j).
  { unfold slot_begin. subst pool1. by rewrite allocate_size. }
  by rewrite Hsb.
Qed.

Lemma Particle_copy_no_properties this0 mem ar P :
  has_properties P = false →
  Particle_copy P (mkState this0 mem ar) =
    (Ok tt,
     mkState (mkParticle (location P) (reference_location P) (id P)
                         (property_pool P) invalid_handle) mem ar).
Proof. intros H. unfold Particle_copy. run. by rewrite H. Qed.

(** ** Ownership of handles *)

Lemma values_frame p (mem : gmap nat PropertyPool) a pool pool' j :
  mem !! a = Some pool →
  (∀ i, i ≠ j → i < n_slots pool → slot_values pool' i = slot_values pool i) →
  (∀ i, property_pool p = Some a → properties p = handle i →
        i ≠ j ∧ i < n_slots pool) →
  property_values p (<[a := pool']> mem) = property_values p mem.
Proof.
  intros Hp Hsl Hne. unfold property_values.
  destruct (property_pool p) as [a'|] eqn:Ea; [|done].
  destruct (properties p) as [|i] eqn:Ei; [done|].
  destruct (decide (a' = a)) as [->|Hna].
  - rewrite lookup_insert_eq, Hp. simpl.
    destruct (Hne i eq_refl eq_refl). by apply Hsl.
  - by rewrite lookup_insert_ne.
Qed.

Lemma ownership_values_frame ps (mem : gmap nat PropertyPool) a pool pool' j :
  ownership ps mem → mem !! a = Some pool → ¬ live pool j →
  (∀ i, i ≠ j → i < n_slots pool → slot_values pool' i = slot_values pool i) →
  ∀ p, p ∈ ps → property_values p (<[a := pool']> mem) = property_values p mem.
Proof.
  intros [Hown _] Hp Hj Hsl p Hin. apply (values_frame p mem a pool pool' j);
    [done|done|].
  intros i Ha Hi.
  destruct (Hown p Hin) as (a' & i' & pool0 & (Ha' & Hi' & Hp' & _ & _) & Hlive).
  { apply has_properties_true. eauto. }
  assert (a' = a) as -> by congruence.
  assert (i' = i) as -> by congruence.
  assert (pool0 = pool) as -> by congruence.
  split; [|by destruct Hlive]. by intros ->.
Qed.

Lemma ownership_frame ps (mem : gmap nat PropertyPool) a pool pool' :
  ownership ps mem → mem !! a = Some pool → pool_wf pool' →
  (∀ i, live pool i → live pool' i) →
  ownership ps (<[a := pool']> mem).
Proof.
  intros [Hown Hdist] Hp Hwf Hlive. split; [|done].
  intros p Hin Hhas.
  destruct (Hown p Hin Hhas) as (a' & i & pool0 & (Ha' & Hi & Hp' & Hw0 & Hlt) & Hl).
  destruct (decide (a' = a)) as [->|Hne].
  - assert (pool0 = pool) as -> by congruence.
    exists a, i, pool'. pose proof (Hlive i Hl) as Hl'.
    split; [|done]. split; [done|]. split; [done|].
    split; [apply lookup_insert_eq|]. split; [done|]. by destruct Hl'.
  - exists a', i, pool0. split; [|done]. split; [done|]. split; [done|].
    split; [by rewrite lookup_insert_ne|done].
Qed.

Lemma ownership_cons Q ps (mem : gmap nat PropertyPool) :
  ownership ps mem →
  (has_properties Q = true →
   ∃ a j pool, owns Q mem a j pool ∧ live pool j ∧
     ∀ q, q ∈ ps → property_pool q = Some a → properties q ≠ handle j) →
  ownership (Q :: ps) mem.
Proof.
  intros [Hown Hdist] HQ. split.
  - intros p Hin Hhas. apply elem_of_cons in Hin as [->|Hin]; [|by apply Hown].
    destruct (HQ Hhas) as (a & j & pool & H1 & H2 & _). eauto.
  - intros [|m] [|n] p q Hm Hn Hmn Hp Hq Hpool; simpl in *.
    + done.
    + injection Hm as <-.
      destruct (HQ Hp) as (a & j & pool & (Ha & Hj & _) & _ & Hne).
      rewrite Hj. intros E. apply (Hne q).
      * apply list_elem_of_lookup. eauto.
      * congruence.
      * done.
    + injection Hn as <-.
      destruct (HQ Hq) as (a & j & pool & (Ha & Hj & _) & _ & Hne).
      rewrite Hj. apply (Hne p).
      * apply list_elem_of_lookup. eauto.
      * congruence.
    + apply (Hdist m n); try done. congruence.
Qed.

Lemma pool_with_copy_live npool l i :
  live npool i → live (pool_with_copy npool l) i.
Proof. intros H. by apply (allocate_keeps_live npool). Qed.

(** C6.  Copying a live particle [P] gives a particle with [P]'s
    location, reference location, id and pool.  When [P] has properties
    the copy holds a handle of the same pool that was not live before and
    differs from [P]'s, and the slot holds [P]'s values; the values of
    [P] and of every other live particle are as before; the particles
    alive after the copy, the new one included, still hold pairwise
    different handles; and whatever is then assigned to the copy's
    properties, the values of [P] and of the other particles stay. *)
Theorem copy_independence this0 mem ar ps P :
  ownership ps mem → P ∈ ps →
  ∃ s',
    Particle_copy P (mkState this0 mem ar) = (Ok tt, s') ∧
    location (this s') = location P ∧
    reference_location (this s') = reference_location P ∧
    id (this s') = id P ∧
    property_pool (this s') = property_pool P ∧
    has_properties (this s') = has_properties P ∧
    property_values (this s') (pools s') = property_values P mem ∧
    (∀ p, p ∈ ps → property_values p (pools s') = property_values p mem) ∧
    ownership (this s' :: ps) (pools s') ∧
    (has_properties P = true →
       properties (this s') ≠ properties P ∧
       (∀ a pool j, property_pool P = Some a → mem !! a = Some pool →
                    properties (this s') = handle j → ¬ live pool j) ∧
       (∀ ws r s'', write_all ws s' = (r, s'') →
          ∀ p, p ∈ ps → property_values p (pools s'') = property_values p mem) ∧
       (∀ k d l, property_values P mem = Some l → k < length l →
          ∃ s'', write_property k d s' = (Ok tt, s'') ∧
            property_values (this s'') (pools s'') = Some (<[k := d]> l) ∧
            property_values P (pools s'') = Some l)).
Proof.
  intros Hinv Hin. destruct (has_properties P) eqn:Hhas.
  - pose proof Hinv as [Hown Hdist].
    destruct (Hown P Hin Hhas) as (a & i & pool & HownP & Hlive).
    destruct (Particle_copy_owned this0 mem ar P a i pool HownP)
      as (l & Hl & Hlen & Hrun).
    destruct (owns_values _ _ _ _ _ HownP) as (l' & Hv & Hsl & _ & _).
    assert (l' = l) as -> by congruence.
    destruct HownP as (Ha & Hi & Hp & Hwf & Hlt).
    set (j := allocated_slot pool) in *.
    set (pool1 := pool_with_copy pool l) in *.
    assert (Hfresh : ¬ live pool j) by by apply allocate_not_live.
    assert (Hwf1 : pool_wf pool1) by (apply pool_with_copy_wf; [done|lia]).
    assert (Hj1 : j < n_slots pool1) by by apply (allocated_slot_lt pool).
    assert (Hlive1 : live pool1 j) by by apply (allocate_live pool).
    assert (Hsame : slot_values pool1 j = Some l)
      by by apply pool_with_copy_same.
    assert (Hother : ∀ i', i' ≠ j → i' < n_slots pool →
                           slot_values pool1 i' = slot_values pool i')
      by (intros; by apply pool_with_copy_other).
    eexists. split; [exact Hrun|]. simpl.
    do 4 (split; [done|]).
    split; [apply has_properties_true; eauto|].
    split.
    { unfold property_values at 1. simpl. rewrite lookup_insert_eq. simpl.
      by rewrite Hsame. }
    split; [by apply (ownership_values_frame ps mem a pool pool1 j)|].
    split.
    { apply ownership_cons.
      - apply (ownership_frame ps mem a pool pool1); [done..|].
        intros; by apply pool_with_copy_live.
      - intros _. exists a, j, pool1. split; [|split; [done|]].
        + split; [done|]. split; [done|]. split; [apply lookup_insert_eq|done].
        + intros q Hq Hqa Hqj.
          destruct (Hown q Hq) as (a' & i' & pool0 & (? & ? & ? & _) & ?).
          { apply has_properties_true. eauto. }
          apply Hfresh. by replace pool with pool0 by congruence;
            replace j with i' by congruence. }
    intros _. split; [|split; [|split]].
    + rewrite Hi. intros [= E]. apply Hfresh. by rewrite E.
    + intros a' pool' j' Ha' Hp' [= <-].
      by replace pool' with pool by congruence.
    + intros ws r s'' Hws p Hp'.
      set (s' := mkState _ _ _) in Hws.
      destruct (write_all_run ws s' a j pool1)
        as (r' & pool2 & Hrun2 & Hwf2 & Hs2 & Hn2 & Hf2 & Ho2);
        [done|done|apply lookup_insert_eq|done|done|].
      rewrite Hrun2 in Hws. injection Hws as <- <-. simpl.
      rewrite insert_insert_eq.
      apply (ownership_values_frame ps mem a pool pool2 j);
        [done|done|done| |done].
      intros i' Hi' Hlt'. rewrite Ho2 by done. by apply Hother.
    + intros k d l0 Hl0 Hk. assert (l0 = l) as -> by congruence.
      set (s' := mkState _ _ _).
      destruct (write_property_run s' a j pool1 k d)
        as (r' & pool2 & Hrun2 & Hwf2 & Hs2 & Hn2 & Hf2 & Ho2 & Hin2);
        [done|done|apply lookup_insert_eq|done|done|].
      destruct Hin2 as [-> Hnew].
      { change (n_properties_per_slot pool1)
          with (n_properties_per_slot (allocate pool).2).
        rewrite allocate_size. lia. }
      eexists. split; [exact Hrun2|]. simpl. rewrite insert_insert_eq.
      split.
      * unfold property_values. simpl. rewrite lookup_insert_eq. simpl.
        by rewrite Hnew, Hsame.
      * rewrite <- Hv.
        apply (ownership_values_frame ps mem a pool pool2 j);
          [done|done|done| |done].
        intros i' Hi' Hlt'. rewrite Ho2 by done. by apply Hother.
  - rewrite Particle_copy_no_properties by done.
    destruct (no_properties_values P mem Hhas) as [Hv _].
    eexists. split; [done|]. simpl. do 4 (split; [done|]).
    assert (HQ : has_properties
                   (mkParticle (location P) (reference_location P) (id P)
                               (property_pool P) invalid_handle) = false)
      by (apply has_properties_false; by right).
    split; [done|].
    split; [by destruct (no_properties_values _ mem HQ) as [-> _]|].
    split; [done|]. split; [|done].
    apply ownership_cons; [done|]. by rewrite HQ.
Qed.

Lemma Particle_move_run this0 mem ar P :
  Particle_move P (mkState this0 mem ar) =
    (Ok (with_properties invalid_handle P),
     mkState (mkParticle (location P) (reference_location P) (id P)
                         (property_pool P) (properties P)) mem ar).
Proof. done. Qed.

Lemma moved_from_no_properties P :
  has_properties (with_properties invalid_handle P) = false.
Proof. apply has_properties_false. by right. Qed.

Lemma ownership_moved ps mem m P :
  ownership ps mem → ps !! m = Some P →
  ownership (P :: <[m := with_properties invalid_handle P]> ps) mem.
Proof.
  intros [Hown Hdist] Hm.
  assert (Hlook : ∀ n q, <[m := with_properties invalid_handle P]> ps !! n
                         = Some q → has_properties q = true →
                         n ≠ m ∧ ps !! n = Some q).
  { intros n q Hn Hq. apply list_lookup_insert_Some in Hn
      as [(-> & <- & _)|[Hne Hn]]; [|done].
    by rewrite moved_from_no_properties in Hq. }
  apply ownership_cons.
  - split.
    + intros p Hp Hhas. apply list_elem_of_lookup in Hp as [n Hn].
      destruct (Hlook n p Hn Hhas) as [_ Hn'].
      apply Hown; [|done]. apply list_elem_of_lookup. eauto.
    + intros n1 n2 p q H1 H2 Hne Hp Hq.
      destruct (Hlook n1 p H1 Hp) as [_ H1'].
      destruct (Hlook n2 q H2 Hq) as [_ H2'].
      by apply (Hdist n1 n2).
  - intros Hhas.
    destruct (Hown P) as (a & j & pool & HownP & Hlive);
      [apply list_elem_of_lookup; eauto|done|].
    exists a, j, pool. split; [done|]. split; [done|].
    intros q Hq Hqa Hqj. apply list_elem_of_lookup in Hq as [n Hn].
    assert (Hqhas : has_properties q = true)
      by (apply has_properties_true; eauto).
    destruct (Hlook n q Hn Hqhas) as [Hne Hn'].
    destruct HownP as (Ha & Hj & _).
    apply (Hdist n m q P); try done; congruence.
Qed.

(** C7.  Moving from [P] gives the destination [P]'s location, reference
    location, id, pool pointer and handle, and leaves [P] with the
    invalid handle, so that [has_properties] is false for it; no pool is
    touched.  Among the live particles, with [P] replaced by what is left
    of it and the destination added, no two hold the same handle: the
    destination is the only owner of the handle it received. *)
Theorem move_leaves_source_without_properties :
  (∀ this0 mem ar P,
     ∃ P' s',
       Particle_move P (mkState this0 mem ar) = (Ok P', s') ∧
       location (this s') = location P ∧
       reference_location (this s') = reference_location P ∧
       id (this s') = id P ∧
       property_pool (this s') = property_pool P ∧
       properties (this s') = properties P ∧
       pools s' = mem ∧
       properties P' = invalid_handle ∧
       has_properties P' = false)
  ∧ (∀ this0 mem ar ps m P,
       ownership ps mem → ps !! m = Some P →
       ∃ P' s',
         Particle_move P (mkState this0 mem ar) = (Ok P', s') ∧
         ownership (this s' :: <[m := P']> ps) (pools s') ∧
         (has_properties P = true →
          ∀ q, q ∈ <[m := P']> ps →
               property_pool q = property_pool (this s') →
               properties q ≠ properties (this s'))).
Proof.
  split.
  - intros this0 mem ar P. do 2 eexists.
    split; [apply Particle_move_run|]. simpl.
    do 7 (split; [done|]). apply moved_from_no_properties.
  - intros this0 mem ar ps m P Hinv Hm. do 2 eexists.
    split; [apply Particle_move_run|]. simpl.
    assert (HP : mkParticle (location P) (reference_location P) (id P)
                            (property_pool P) (properties P) = P)
      by by destruct P.
    rewrite HP. pose proof (ownership_moved ps mem m P Hinv Hm) as Hinv'.
    split; [done|].
    intros Hhas q Hq Hpool. destruct Hinv' as [_ Hdist].
    apply list_elem_of_lookup in Hq as [n Hn].
    destruct (has_properties q) eqn:Hqhas.
    + apply (Hdist (S n) 0 q P); done.
    + apply has_properties_true in Hhas as (a & j & Ha & Hj).
      apply has_properties_false in Hqhas as [Hq|Hq]; congruence.
Qed.

(** ** The claims at concrete states *)

Ltac concrete_wf :=
  split; simpl;
  [ reflexivity
  | intros ? Hin;
    repeat (apply elem_of_cons in Hin as [->|Hin]; [lia|]);
    by apply elem_of_nil in Hin
  | repeat constructor; set_solver
  | reflexivity ].

Ltac concrete_owns :=
  split; [reflexivity|]; split; [reflexivity|]; split; [reflexivity|];
  split; [concrete_wf|simpl; lia].

Ltac concrete_live :=
  split; [simpl; lia|simpl; set_solver].

Lemma get_properties_iff_has_properties_witness :
  (has_properties ex_p = true ↔
   ∃ v, get_properties_const (mkState ex_p ex_mem []) =
          (Ok v, mkState ex_p ex_mem []))
  ∧ (get_properties_const (mkState ex_unbound ex_mem []) =
       (Raise ExcInternalError, mkState ex_unbound ex_mem []) ∧
     get_properties (mkState ex_unbound ex_mem []) =
       (Raise ExcInternalError, mkState ex_unbound ex_mem []))
  ∧ (has_properties ex_q = false ∧
     ∃ v s', get_properties (mkState ex_q ex_mem []) = (Ok v, s') ∧
       properties (this s') = (allocate ex_pool2).1 ∧
       pools s' !! 5 = Some (allocate ex_pool2).2 ∧
       av_size v = n_properties_per_slot ex_pool2 ∧
       has_properties (this s') = true).
Proof.
  split; [|split].
  - apply (proj1 get_properties_iff_has_properties (mkState ex_p ex_mem []) 0);
      [reflexivity|eexists; reflexivity].
  - apply (proj1 (proj2 get_properties_iff_has_properties)
                 (mkState ex_unbound ex_mem [])); reflexivity.
  - apply (proj2 (proj2 get_properties_iff_has_properties)
                 (mkState ex_q ex_mem []) 5 ex_pool2); reflexivity.
Defined.

(** C2, counterexample to the claim as it stands.  With one property
    before and a target pool of slot size two, the call returns and the
    particle has two property values afterwards; with two properties
    before and a target pool of slot size one, the call returns and the
    particle is left with one value, the second one having been stored
    over the next slot of the target pool. *)
Lemma set_property_pool_changes_values :
  (owns grow_p grow_mem 0 0 grow_old ∧ live grow_old 0 ∧
   grow_mem !! 1 = Some grow_new ∧ pool_wf grow_new ∧
   property_values grow_p grow_mem = Some [5]%Z ∧
   ∃ s', set_property_pool 1 (mkState grow_p grow_mem []) = (Ok tt, s') ∧
         property_values (this s') (pools s') = Some [5; 0]%Z)
  ∧ (owns shrink_p shrink_mem 0 0 shrink_old ∧ live shrink_old 0 ∧
     shrink_mem !! 1 = Some shrink_new ∧ pool_wf shrink_new ∧
     property_values shrink_p shrink_mem = Some [5; 6]%Z ∧
     ∃ s', set_property_pool 1 (mkState shrink_p shrink_mem []) = (Ok tt, s') ∧
           property_values (this s') (pools s') = Some [5]%Z ∧
           arena <$> (pools s' !! 1) = Some [5; 6]%Z).
Proof.
  split.
  - split; [concrete_owns|]. split; [concrete_live|].
    split; [reflexivity|]. split; [concrete_wf|]. split; [reflexivity|].
    eexists. split; reflexivity.
  - split; [concrete_owns|]. split; [concrete_live|].
    split; [reflexivity|]. split; [concrete_wf|]. split; [reflexivity|].
    eexists. split; [reflexivity|]. split; reflexivity.
Qed.

Lemma set_property_pool_atomic_witness :
  ∃ l, property_values ex_p ex_mem = Some l ∧
    match set_property_pool 5 (mkState ex_p ex_mem []) with
    | (Ok _, s') =>
        location (this s') = location ex_p ∧
        reference_location (this s') = reference_location ex_p ∧
        id (this s') = id ex_p ∧
        property_pool (this s') = Some 5 ∧
        properties (this s') = (allocate ex_pool2).1 ∧
        property_values (this s') (pools s') = Some l ∧
        ∃ pool', pools s' !! 0 = Some pool' ∧ 1 ∈ free_list pool'
    | (Raise e, s') =>
        e = ExcHandleReleased ∧
        this s' = ex_p ∧
        property_values ex_p (pools s') = Some l ∧
        ∃ npool', pools s' !! 5 = Some npool' ∧
                  slot_values npool' (allocated_slot ex_pool2) = Some l
    end ∧
    (live ex_pool 1 →
     ∃ s', set_property_pool 5 (mkState ex_p ex_mem []) = (Ok tt, s')).
Proof.
  apply (set_property_pool_atomic ex_p ex_mem [] 0 1 ex_pool 5 ex_pool2);
    [concrete_owns|reflexivity|concrete_wf|reflexivity].
Defined.

(** The release raises for a handle that is already on the free list: the
    copy is in the target pool, the particle is as it was. *)
Example set_property_pool_raises_at_release :
  ∃ s', set_property_pool 5 (mkState ex_p0 ex_mem_released []) =
          (Raise ExcHandleReleased, s') ∧
        this s' = ex_p0 ∧
        property_values ex_p0 (pools s') = Some [10; 11]%Z ∧
        ∃ npool', pools s' !! 5 = Some npool' ∧
                  slot_values npool' 0 = Some [10; 11]%Z.
Proof.
  eexists. split; [reflexivity|]. split; [reflexivity|].
  split; [reflexivity|]. eexists. split; reflexivity.
Qed.

Lemma save_load_roundtrip_witness :
  ∃ stream s2,
    save (mkState ex_p ex_mem []) = (Ok tt, mkState ex_p ex_mem stream) ∧
    load 2 2 (mkState ex_q ex_mem (stream ++ [PUInt 99])) = (Ok tt, s2) ∧
    archive s2 = [PUInt 99] ∧
    location (this s2) = location ex_p ∧
    reference_location (this s2) = reference_location ex_p ∧
    id (this s2) = id ex_p ∧
    default [] (property_values (this s2) (pools s2)) =
      default [] (property_values ex_p ex_mem) ∧
    (0 < property_count ex_p ex_mem →
       has_properties (this s2) = true ∧
       property_values (this s2) (pools s2) = property_values ex_p ex_mem).
Proof.
  apply (save_load_roundtrip 2 2 ex_p ex_mem ex_q ex_mem 5 ex_pool2);
    [reflexivity|reflexivity| |reflexivity|reflexivity|concrete_wf
    |discriminate|reflexivity].
  intros _. exists 0, 1, ex_pool. concrete_owns.
Defined.

(** C4, counterexample to the claim as it stands.  A record that declares
    no properties is loaded without error into a particle bound to a pool
    of slot size three, although the two counts differ. *)
Lemma load_zero_count_no_schema_error :
  property_pool ex_q3 = Some 6 ∧ ex_mem !! 6 = Some ex_pool3 ∧
  N.of_nat (n_properties_per_slot ex_pool3) ≠ 0%N ∧
  load 2 2 (mkState ex_q3 ex_mem (header [1; 2]%Z [3; 4]%Z 7%N 0%N)) =
    (Ok tt,
     mkState (mkParticle [1; 2]%Z [3; 4]%Z 7%N (Some 6) invalid_handle)
             ex_mem []).
Proof. repeat split; try reflexivity. discriminate. Qed.

Lemma load_schema_mismatch_witness :
  ∃ s', load 2 2 (mkState ex_q3 ex_mem (header [1; 2]%Z [3; 4]%Z 7%N 2%N
                                          ++ [PDouble 20; PDouble 21]%Z)) =
    (Raise (ExcMessage
       ("This particle was serialized with " +:+ pretty 2%N +:+
        " properties, but the new property handler provides space for " +:+
        pretty (N.of_nat (n_properties_per_slot ex_pool3)) +:+
        " properties. Deserializing a particle only works for matching property sizes.")),
     s').
Proof.
  apply (load_schema_mismatch 2 2 ex_q3 ex_mem 6 ex_pool3);
    [reflexivity|reflexivity|reflexivity|reflexivity|reflexivity|discriminate].
Defined.

(** The diagnostic of the mismatch above, as printed. *)
Example mismatch_diagnostic_text :
  (load 2 2 (mkState ex_q3 ex_mem (header [1; 2]%Z [3; 4]%Z 7%N 2%N
                                     ++ [PDouble 20; PDouble 21]%Z))).1 =
  Raise (ExcMessage "This particle was serialized with 2 properties, but the new property handler provides space for 3 properties. Deserializing a particle only works for matching property sizes.").
Proof. reflexivity. Qed.

Lemma save_layout_witness :
  ∃ (n_properties : nat) (values : list double),
    n_properties = (if has_properties ex_p
                    then property_count ex_p ex_mem else 0) ∧
    length values = n_properties ∧
    (has_properties ex_p = true →
       property_values ex_p ex_mem = Some values) ∧
    (values ≠ [] ↔ 0 < n_properties) ∧
    save (mkState ex_p ex_mem []) =
      (Ok tt,
       mkState ex_p ex_mem
         ([] ++
          (PDouble <$> location ex_p) ++
          (PDouble <$> reference_location ex_p) ++
          [PIndex (id ex_p); PUInt (N.of_nat n_properties)] ++
          (PDouble <$> values))).
Proof.
  apply (save_layout (mkState ex_p ex_mem [])).
  intros _. exists 0, 1, ex_pool. concrete_owns.
Defined.

(** The stream of the particle above. *)
Example saved_stream_example :
  save (mkState ex_p ex_mem []) =
    (Ok tt,
     mkState ex_p ex_mem
       [PDouble 1%Z; PDouble 2%Z; PDouble 3%Z; PDouble 4%Z;
        PIndex 7%N; PUInt 2%N; PDouble 20%Z; PDouble 21%Z]).
Proof. reflexivity. Qed.

Lemma load_zero_properties_witness :
  load 2 2 (mkState ex_q3 ex_mem (header [1; 2]%Z [3; 4]%Z 7%N 0 ++ [])) =
    (Ok tt,
     mkState (mkParticle [1; 2]%Z [3; 4]%Z 7%N (property_pool ex_q3)
                         (properties ex_q3)) ex_mem []).
Proof.
  apply (load_zero_properties 2 2 ex_q3 ex_mem [1; 2]%Z [3; 4]%Z 7%N []);
    reflexivity.
Defined.

Ltac concrete_ownership :=
  split;
  [ intros ? Hin _;
    repeat (apply elem_of_cons in Hin as [->|Hin];
            [do 3 eexists; split; [concrete_owns|concrete_live]|]);
    by apply elem_of_nil in Hin
  | intros [|[|?]] [|[|?]] ? ? Hm Hn ? _ _ _; simpl in *; try done;
    injection Hm as <-; injection Hn as <-; discriminate ].

Lemma copy_independence_witness :
  ∃ s',
    Particle_copy ex_p (mkState ex_unbound ex_mem []) = (Ok tt, s') ∧
    location (this s') = location ex_p ∧
    reference_location (this s') = reference_location ex_p ∧
    id (this s') = id ex_p ∧
    property_pool (this s') = property_pool ex_p ∧
    has_properties (this s') = has_properties ex_p ∧
    property_values (this s') (pools s') = property_values ex_p ex_mem ∧
    (∀ p, p ∈ [ex_p0; ex_p] →
          property_values p (pools s') = property_values p ex_mem) ∧
    ownership (this s' :: [ex_p0; ex_p]) (pools s') ∧
    (has_properties ex_p = true →
       properties (this s') ≠ properties ex_p ∧
       (∀ a pool j, property_pool ex_p = Some a → ex_mem !! a = Some pool →
                    properties (this s') = handle j → ¬ live pool j) ∧
       (∀ ws r s'', write_all ws s' = (r, s'') →
          ∀ p, p ∈ [ex_p0; ex_p] →
               property_values p (pools s'') = property_values p ex_mem) ∧
       (∀ k d l, property_values ex_p ex_mem = Some l → k < length l →
          ∃ s'', write_property k d s' = (Ok tt, s'') ∧
            property_values (this s'') (pools s'') = Some (<[k := d]> l) ∧
            property_values ex_p (pools s'') = Some l)).
Proof.
  apply (copy_independence ex_unbound ex_mem [] [ex_p0; ex_p] ex_p);
    [concrete_ownership|set_solver].
Defined.

(** The copy of the particle above and an assignment to it. *)
Example copy_then_write :
  ∃ s' s'',
    Particle_copy ex_p (mkState ex_unbound ex_mem []) = (Ok tt, s') ∧
    properties (this s') = handle 2 ∧
    write_property 0 99%Z s' = (Ok tt, s'') ∧
    property_values (this s'') (pools s'') = Some [99; 21]%Z ∧
    property_values ex_p (pools s'') = Some [20; 21]%Z.
Proof.
  do 2 eexists. split; [reflexivity|]. split; [reflexivity|].
  split; [reflexivity|]. split; reflexivity.
Qed.

Lemma move_leaves_source_without_properties_witness :
  ∃ P' s',
    Particle_move ex_p (mkState ex_unbound ex_mem []) = (Ok P', s') ∧
    ownership (this s' :: <[1 := P']> [ex_p0; ex_p]) (pools s') ∧
    (has_properties ex_p = true →
     ∀ q, q ∈ <[1 := P']> [ex_p0; ex_p] →
          property_pool q = property_pool (this s') →
          properties q ≠ properties (this s')).
Proof.
  apply (proj2 move_leaves_source_without_properties
               ex_unbound ex_mem [] [ex_p0; ex_p] 1 ex_p);
    [concrete_ownership|reflexivity].
Defined.

Lemma set_property_pool_reallocates_witness :
  (∃ l s' npool',
     property_values ex_p ex_mem = Some l ∧
     set_property_pool 0 (mkState ex_p ex_mem []) = (Ok tt, s') ∧
     property_pool (this s') = Some 0 ∧
     properties (this s') = (allocate ex_pool).1 ∧
     properties (this s') = handle (allocated_slot ex_pool) ∧
     ¬ live ex_pool (allocated_slot ex_pool) ∧
     pools s' !! 0 = Some npool' ∧
     live npool' (allocated_slot ex_pool) ∧
     sublist_lookup (slot_begin npool' (allocated_slot ex_pool)) (length l)
                    (arena npool') = Some l ∧
     (0 = 0 →
      properties (this s') ≠ properties ex_p ∧
      property_values (this s') (pools s') = Some l) ∧
     (n_properties_per_slot ex_pool = n_properties_per_slot ex_pool →
      property_values (this s') (pools s') = Some l))
  ∧ set_property_pool 6 (mkState ex_q ex_mem []) =
      (Ok tt,
       mkState (mkParticle (location ex_q) (reference_location ex_q) (id ex_q)
                           (Some 6) invalid_handle) ex_mem []).
Proof.
  split.
  - apply (proj1 set_property_pool_reallocates
                 ex_p ex_mem [] 0 1 ex_pool 0 ex_pool);
      [concrete_owns|concrete_live|reflexivity|concrete_wf|simpl; lia].
  - apply (proj2 set_property_pool_reallocates ex_q ex_mem [] 6).
    reflexivity.
Defined.

(** C10, counterexample to the claim as it stands.  The particle that
    holds 20 and 21 in a slot of two doubles: rebound to a pool of slot
    size three it has three property values afterwards; rebound to an
    empty pool of slot size one the call does not return, the copy of two
    doubles running past the one double the target pool has allocated,
    and the particle is still bound to its old pool. *)
Lemma set_property_pool_other_slot_size :
  (owns ex_p ex_mem 0 1 ex_pool ∧ live ex_pool 1 ∧
   ex_mem !! 6 = Some ex_pool3 ∧ pool_wf ex_pool3 ∧
   property_values ex_p ex_mem = Some [20; 21]%Z ∧
   ∃ s', set_property_pool 6 (mkState ex_p ex_mem []) = (Ok tt, s') ∧
         property_values (this s') (pools s') = Some [20; 21; 0]%Z)
  ∧ (owns ex_p narrow_mem 0 1 ex_pool ∧ live ex_pool 1 ∧
     narrow_mem !! 7 = Some narrow_pool ∧ pool_wf narrow_pool ∧
     ∃ s', set_property_pool 7 (mkState ex_p narrow_mem []) =
             (Raise Undefined, s') ∧
           this s' = ex_p ∧
           arena <$> (pools s' !! 7) = Some [0]%Z).
Proof.
  split.
  - split; [concrete_owns|]. split; [concrete_live|].
    split; [reflexivity|]. split; [concrete_wf|]. split; [reflexivity|].
    eexists. split; reflexivity.
  - split; [concrete_owns|]. split; [concrete_live|].
    split; [reflexivity|]. split; [concrete_wf|].
    eexists. split; [reflexivity|]. split; reflexivity.
Qed.

(** Rebinding the particle above to the pool it is bound to: the handle
    goes from slot 1 to slot 2, the values stay, slot 1 is free. *)
Example set_property_pool_same_pool :
  ∃ s', set_property_pool 0 (mkState ex_p ex_mem []) = (Ok tt, s') ∧
        properties (this s') = handle 2 ∧
        property_values (this s') (pools s') = Some [20; 21]%Z ∧
        free_list <$> (pools s' !! 0) = Some [1].
Proof.
  eexists. split; [reflexivity|]. split; [reflexivity|]. split; reflexivity.
Qed.

(** ** What the member functions leave alone *)

Lemma pool_get_properties_state a h s : (pool_get_properties a h s).2 = s.
Proof.
  unfold pool_get_properties. run. destruct (pools s !! a); [|done].
  by destruct h.
Qed.

Lemma get_properties_const_state s : (get_properties_const s).2 = s.
Proof.
  unfold get_properties_const. run. destruct (has_properties (this s)); [|done].
  simpl. destruct (property_pool (this s)) as [a|]; [|done].
  pose proof (pool_get_properties_state a (properties (this s)) s) as H.
  by destruct (pool_get_properties a (properties (this s)) s) as [[v|e] s'].
Qed.

Lemma read_doubles_state v n s : (read_doubles v n s).2 = s.
Proof.
  unfold read_doubles. run. destruct (pools s !! av_pool v); [|done].
  by destruct (sublist_lookup _ _ _).
Qed.

(** [save] is a const member function: whatever it returns or raises, the
    particle and every pool are as before, and the archive has only grown
    at its end. *)
Theorem save_changes_only_the_archive s :
  ∃ r out, save s = (r, mkState (this s) (pools s) (archive s ++ out)).
Proof.
  assert (Hend : ∀ n out,
    ∃ r out',
      (if bool_decide (0 < n)%N then
         v <- get_properties_const ;;
         values <- read_doubles v (N.to_nat n) ;;
         ar_write (PDouble <$> values)
       else ret tt) (mkState (this s) (pools s) (archive s ++ out)) =
      (r, mkState (this s) (pools s) (archive s ++ out'))).
  { intros n out. destruct (bool_decide (0 < n)%N); [|by exists (Ok tt), out].
    set (s1 := mkState _ _ _). unfold bind at 1.
    pose proof (get_properties_const_state s1) as H1.
    destruct (get_properties_const s1) as [[v|e] s'] eqn:E1; simpl in H1;
      subst s'; [|by exists (Raise e), out].
    unfold bind at 1.
    pose proof (read_doubles_state v (N.to_nat n) s1) as H2.
    destruct (read_doubles v (N.to_nat n) s1) as [[l|e] s'] eqn:E2;
      simpl in H2; subst s'; [|by exists (Raise e), out].
    exists (Ok tt), (out ++ (PDouble <$> l)). unfold ar_write. subst s1.
    simpl. by rewrite (assoc_L (++)). }
  unfold save. unfold bind at 1. unfold get_this at 1.
  destruct (bool_decide (property_pool (this s) ≠ None) &&
            bool_decide (properties (this s) ≠ invalid_handle)).
  - unfold bind at 1. unfold bind at 1.
    pose proof (get_properties_const_state s) as H1.
    destruct (get_properties_const s) as [[v|e] s'] eqn:E1; simpl in H1;
      subst s'.
    + unfold ret at 1. run.
      destruct (Hend (to_unsigned_int (av_size v))
                  ((PDouble <$> location (this s)) ++
                   (PDouble <$> reference_location (this s)) ++
                   [PIndex (id (this s)); PUInt (to_unsigned_int (av_size v))]))
        as (r & out' & H).
      revert H. run. rewrite <- !(assoc_L (++)). simpl. eauto.
    + exists (Raise e), []. rewrite (right_id_L [] (++)). by destruct s.
  - run.
    destruct (Hend 0%N
                ((PDouble <$> location (this s)) ++
                 (PDouble <$> reference_location (this s)) ++
                 [PIndex (id (this s)); PUInt 0])) as (r & out' & H).
    revert H. run. rewrite <- !(assoc_L (++)). simpl. eauto.
Qed.

(** ** Loading into a bound particle *)

(** [load] of a record with a positive count that matches the slot size
    of the bound pool: the slot of the particle, or the one it is given,
    receives the values. *)
Lemma load_positive dim spacedim Q mem a pool x y i vals rest :
  length x = spacedim → length y = dim →
  property_pool Q = Some a → mem !! a = Some pool → pool_wf pool →
  (∀ k, properties Q = handle k → k < n_slots pool) →
  length vals = n_properties_per_slot pool → 0 < length vals →
  let j := match properties Q with
           | handle k => k
           | invalid_handle => allocated_slot pool
           end in
  let pool' := match properties Q with
               | handle _ => pool
               | invalid_handle => (allocate pool).2
               end in
  pool_wf pool' ∧ j < n_slots pool' ∧
  load dim spacedim
       (mkState Q mem (header x y i (N.of_nat (length vals)) ++
                       (PDouble <$> vals) ++ rest)) =
    (Ok tt,
     mkState (mkParticle x y i (Some a) (handle j))
             (<[a := written pool' (slot_begin pool' j) vals]> mem) rest).
Proof.
  intros Hx Hy Ha Hp Hwf Hk Hlen Hpos j pool'.
  assert (Hwf' : pool_wf pool').
  { subst pool'. destruct (properties Q); [by apply allocate_wf|done]. }
  assert (Hj : j < n_slots pool').
  { subst j pool'. destruct (properties Q) as [|k] eqn:E;
      [by apply allocated_slot_lt|by apply Hk]. }
  assert (Hn' : n_properties_per_slot pool' = n_properties_per_slot pool).
  { subst pool'. destruct (properties Q); [apply allocate_size|done]. }
  split; [done|]. split; [done|].
  rewrite load_header by done. unfold load_properties.
  rewrite bool_decide_eq_true_2 by lia.
  set (s := mkState _ mem _).
  assert (Hg : get_properties s =
    (Ok (mkView a (slot_begin pool' j) (n_properties_per_slot pool')),
     mkState (mkParticle x y i (Some a) (handle j))
             (<[a := pool']> mem) ((PDouble <$> vals) ++ rest))).
  { subst j pool' s. destruct (properties Q) as [|k] eqn:E.
    - rewrite (get_properties_lazy _ a pool) by done. simpl.
      unfold slot_begin. by rewrite allocate_size, Ha.
    - rewrite (get_properties_owned _ a k pool) by done.
      by rewrite insert_id, Ha. }
  rewrite (bind_Ok _ _ _ _ _ Hg). simpl av_size. rewrite Hn', <- Hlen.
  rewrite bool_decide_eq_true_2 by done. unfold Assert.
  set (s1 := mkState _ (<[a := pool']> mem) _).
  rewrite (bind_Ok (ret tt) _ s1 tt s1) by done.
  assert (Hp1 : pools s1 !! a = Some pool') by apply lookup_insert_eq.
  rewrite (bind_Ok _ _ _ _ _ (get_properties_owned s1 a j pool' eq_refl eq_refl Hp1)).
  subst s1. rewrite Nat2N.id.
  rewrite (bind_Ok _ _ _ _ _ (ar_read_doubles_app _ _ vals rest)).
  set (s1 := mkState _ _ rest).
  rewrite (write_doubles_slot s1 a pool' j vals) by (done || lia).
  subst s1. simpl. by rewrite insert_insert_eq.
Qed.

Lemma allocate_live_slots pool :
  live_slots (allocate pool).2 = (live_slots pool + 1)%Z.
Proof.
  unfold live_slots, allocate. destruct (free_list pool); simpl length; simpl n_slots; lia.
Qed.

(** [load] into a particle that already holds a slot stores the values in
    that slot: the handle is the one the particle had, nothing is
    allocated or released, and every other slot of the pool keeps its
    values. *)
Theorem load_reuses_the_handle dim spacedim p mem a k pool x y i vals rest :
  length x = spacedim → length y = dim →
  owns p mem a k pool →
  length vals = n_properties_per_slot pool → 0 < length vals →
  ∃ pool',
    load dim spacedim
         (mkState p mem (header x y i (N.of_nat (length vals)) ++
                         (PDouble <$> vals) ++ rest)) =
      (Ok tt,
       mkState (mkParticle x y i (Some a) (handle k))
               (<[a := pool']> mem) rest) ∧
    n_slots pool' = n_slots pool ∧
    free_list pool' = free_list pool ∧
    slot_values pool' k = Some vals ∧
    ∀ j, j ≠ k → slot_values pool' j = slot_values pool j.
Proof.
  intros Hx Hy (Ha & Hk & Hp & Hwf & Hlt) Hlen Hpos.
  destruct (load_positive dim spacedim p mem a pool x y i vals rest)
    as (_ & _ & Hrun); try done.
  { intros k' Hk'. by assert (k' = k) as -> by congruence. }
  rewrite Hk in Hrun. eexists. split; [exact Hrun|].
  split; [done|]. split; [done|]. split.
  - by apply slot_values_written_same.
  - intros j Hj. by apply slot_values_written_other.
Qed.

(** [load] into a bound particle without a handle calls the mutable
    [get_properties] twice and allocates once: the particle receives a
    slot that was not live, the pool has one live slot more, and the
    slots that were live keep their values. *)
Theorem load_allocates_once dim spacedim p mem a pool x y i vals rest :
  length x = spacedim → length y = dim →
  property_pool p = Some a → properties p = invalid_handle →
  mem !! a = Some pool → pool_wf pool →
  length vals = n_properties_per_slot pool → 0 < length vals →
  ∃ pool',
    load dim spacedim
         (mkState p mem (header x y i (N.of_nat (length vals)) ++
                         (PDouble <$> vals) ++ rest)) =
      (Ok tt,
       mkState (mkParticle x y i (Some a) (handle (allocated_slot pool)))
               (<[a := pool']> mem) rest) ∧
    ¬ live pool (allocated_slot pool) ∧
    live pool' (allocated_slot pool) ∧
    live_slots pool' = (live_slots pool + 1)%Z ∧
    slot_values pool' (allocated_slot pool) = Some vals ∧
    ∀ j, live pool j →
         live pool' j ∧ slot_values pool' j = slot_values pool j.
Proof.
  intros Hx Hy Ha Hi Hp Hwf Hlen Hpos.
  destruct (load_positive dim spacedim p mem a pool x y i vals rest)
    as (Hwf' & Hj & Hrun); try done.
  { intros k Hk. congruence. }
  rewrite Hi in Hrun, Hwf', Hj. eexists. split; [exact Hrun|].
  assert (Hfresh : ¬ live pool (allocated_slot pool))
    by by apply allocate_not_live.
  split; [done|]. split; [by apply (allocate_live pool)|].
  split; [apply allocate_live_slots|]. split.
  - apply slot_values_written_same; [done|done|by rewrite allocate_size].
  - intros j Hlive. split; [by apply (allocate_keeps_live pool)|].
    rewrite slot_values_written_other;
      [|done|done|by rewrite allocate_size|by intros ->].
    apply allocate_slot_values; [done|by destruct Hlive].
Qed.

(** A size check that fails does not undo what [load] did before it: the
    location, the reference location and the id are those of the record,
    and a particle that had no handle keeps the slot that was allocated
    for the check. *)
Theorem load_mismatch_keeps_header_and_slot
    dim spacedim p mem a pool x y i n rest :
  length x = spacedim → length y = dim →
  property_pool p = Some a → properties p = invalid_handle →
  mem !! a = Some pool →
  (0 < n)%N → N.of_nat (n_properties_per_slot pool) ≠ n →
  load dim spacedim (mkState p mem (header x y i n ++ rest)) =
    (Raise (ExcMessage
              (load_message n (N.of_nat (n_properties_per_slot pool)))),
     mkState (mkParticle x y i (Some a) (handle (allocated_slot pool)))
             (<[a := (allocate pool).2]> mem) rest) ∧
  has_properties p = false ∧
  has_properties (mkParticle x y i (Some a) (handle (allocated_slot pool)))
    = true ∧
  live_slots (allocate pool).2 = (live_slots pool + 1)%Z.
Proof.
  intros Hx Hy Ha Hi Hp Hn Hne. split; [|split; [|split]].
  - rewrite load_header by done. unfold load_properties.
    rewrite bool_decide_eq_true_2 by done.
    set (s := mkState _ mem rest).
    rewrite (bind_Ok _ _ _ _ _ (get_properties_lazy s a pool Ha Hi Hp)).
    simpl av_size. rewrite bool_decide_eq_false_2 by done.
    unfold Assert, bind, raise. simpl. by rewrite Ha.
  - apply has_properties_false. by right.
  - done.
  - apply allocate_live_slots.
Qed.

(** A record with a positive property count cannot be loaded into a
    particle that is bound to no pool: [load] raises, after it has taken
    the location, the reference location and the id from the record. *)
Theorem load_unbound_raises dim spacedim p mem x y i n rest :
  length x = spacedim → length y = dim →
  property_pool p = None → (0 < n)%N →
  load dim spacedim (mkState p mem (header x y i n ++ rest)) =
    (Raise ExcInternalError,
     mkState (mkParticle x y i None (properties p)) mem rest).
Proof.
  intros Hx Hy Ha Hn. rewrite load_header by done. unfold load_properties.
  rewrite bool_decide_eq_true_2 by done.
  unfold get_properties. run. by rewrite Ha.
Qed.

(** Loading a record and saving the particle again gives the record back:
    for a particle bound to a pool whose slot size is the number of
    doubles in the record, [load] returns, consumes the record and no
    more, and [save] on the result writes the same primitive values. *)
Theorem save_after_load dim spacedim Q mem a pool x y i vals rest :
  length x = spacedim → length y = dim →
  property_pool Q = Some a → mem !! a = Some pool → pool_wf pool →
  (∀ k, properties Q = handle k → k < n_slots pool) →
  length vals = n_properties_per_slot pool →
  ∃ s2,
    load dim spacedim
         (mkState Q mem (header x y i (N.of_nat (length vals)) ++
                         (PDouble <$> vals) ++ rest)) = (Ok tt, s2) ∧
    archive s2 = rest ∧
    save (mkState (this s2) (pools s2) []) =
      (Ok tt,
       mkState (this s2) (pools s2)
               (header x y i (N.of_nat (length vals)) ++ (PDouble <$> vals))).
Proof.
  intros Hx Hy Ha Hp Hwf Hk Hlen.
  destruct (decide (0 < length vals)) as [Hpos|Hzero].
  - destruct (load_positive dim spacedim Q mem a pool x y i vals rest)
      as (Hwf' & Hj & Hrun); try done.
    set (j := match properties Q with
              | handle k => k | invalid_handle => allocated_slot pool end) in *.
    set (pool' := match properties Q with
                  | handle _ => pool | invalid_handle => (allocate pool).2 end)
      in *.
    assert (Hn' : n_properties_per_slot pool' = n_properties_per_slot pool).
    { subst pool'. destruct (properties Q); [apply allocate_size|done]. }
    eexists. split; [exact Hrun|]. split; [done|]. simpl this. simpl pools.
    set (P := mkParticle x y i (Some a) (handle j)).
    set (pool2 := written pool' (slot_begin pool' j) vals).
    assert (Hown : owns P (<[a := pool2]> mem) a j pool2).
    { split; [done|]. split; [done|]. split; [apply lookup_insert_eq|].
      split; [|done]. apply written_wf; [done|].
      pose proof (slot_in_arena pool' j Hwf' Hj). lia. }
    assert (HwfP : particle_wf P (<[a := pool2]> mem)) by (intros _; eauto).
    rewrite (save_run (mkState P (<[a := pool2]> mem) []) HwfP). simpl.
    destruct (owns_values _ _ _ _ _ Hown) as (l & Hv & Hsl & _ & Hcnt).
    assert (l = vals) as ->.
    { subst pool2. rewrite slot_values_written_same in Hsl by (done || lia).
      congruence. }
    rewrite Hv, Hcnt. simpl. by rewrite Hn', Hlen.
  - assert (vals = []) as -> by (destruct vals; [done|simpl in Hzero; lia]).
    simpl in *. rewrite (right_id_L [] (++)).
    rewrite load_header by done. unfold load_properties. simpl.
    eexists. split; [reflexivity|]. split; [done|]. simpl.
    set (P := mkParticle x y i (property_pool Q) (properties Q)).
    assert (HwfP : particle_wf P mem).
    { intros H. apply has_properties_true in H as (a' & k & Ha' & Hk').
      exists a, k, pool. subst P. simpl in *.
      split; [done|]. split; [done|]. split; [done|]. split; [done|].
      by apply Hk. }
    rewrite (save_run (mkState P mem []) HwfP). simpl.
    assert (Hcnt : property_count P mem = 0).
    { unfold property_count. subst P. simpl. rewrite Ha.
      destruct (properties Q); [done|]. by rewrite Hp. }
    assert (Hv : default [] (property_values P mem) = []).
    { unfold property_values. subst P. simpl. rewrite Ha.
      destruct (properties Q) as [|k] eqn:E; [done|]. rewrite Hp. simpl.
      destruct (slot_values_Some pool k Hwf (Hk k eq_refl)) as (l & -> & Hl).
      simpl. destruct l; [done|]. simpl in Hl. lia. }
    rewrite Hcnt, Hv. simpl. by rewrite (right_id_L [] (++)).
Qed.

(** ** Location, reference location and id *)

Lemma get_properties_same_header s :
  same_header (this s) (this (get_properties s).2).
Proof.
  unfold get_properties. run.
  destruct (property_pool (this s)) as [a|]; [|done].
  destruct (bool_decide (properties (this s) = invalid_handle)).
  - unfold allocate_properties_array. run.
    destruct (pools s !! a) as [pool|]; [|done]. simpl.
    by rewrite pool_get_properties_state.
  - simpl. by rewrite pool_get_properties_state.
Qed.

Lemma ar_read_doubles_this k s : this (ar_read_doubles k s).2 = this s.
Proof.
  revert s. induction k as [|k IH]; intros s; [done|].
  simpl. unfold bind at 1. unfold ar_read_double, ar_next. run.
  destruct (archive s) as [|[d| |] rest]; try done. simpl.
  set (s1 := mkState _ _ rest). specialize (IH s1).
  by destruct (ar_read_doubles k s1) as [[l|e] s'].
Qed.

Lemma write_doubles_this v l s : this (write_doubles v l s).2 = this s.
Proof.
  unfold write_doubles. run. destruct (pools s !! av_pool v); [|done].
  by destruct (bool_decide _).
Qed.

Lemma same_header_trans p q r :
  same_header p q → same_header q r → same_header p r.
Proof. intros (? & ? & ?) (? & ? & ?). repeat split; congruence. Qed.

(** The part of [load] that deals with the properties leaves the three
    header fields alone, whether it returns or raises. *)
Lemma load_properties_same_header n s :
  same_header (this s) (this (load_properties n s).2).
Proof.
  unfold load_properties. destruct (bool_decide (0 < n)%N); [|done].
  unfold bind at 1. pose proof (get_properties_same_header s) as H1.
  destruct (get_properties s) as [[v|e] s1]; [|done]. simpl in H1.
  unfold bind at 1. unfold Assert.
  destruct (bool_decide (N.of_nat (av_size v) = n)); [|done].
  unfold ret at 1. unfold bind at 1.
  pose proof (get_properties_same_header s1) as H2.
  destruct (get_properties s1) as [[v2|e] s2];
    [|by apply (same_header_trans _ (this s1))]. simpl in H2.
  unfold bind at 1. pose proof (ar_read_doubles_this (N.to_nat n) s2) as H3.
  destruct (ar_read_doubles (N.to_nat n) s2) as [[l|e] s3]; simpl in H3.
  - rewrite write_doubles_this, H3.
    by apply (same_header_trans _ (this s1)).
  - simpl. rewrite H3. by apply (same_header_trans _ (this s1)).
Qed.

(** What is set with [set_location], [set_reference_location] and
    [set_id] is what a loading particle reads back: the setters leave the
    pool pointer, the handle and the pools alone, the rtree then indexes
    the particle by the new location, and after [save] every [load] of
    the stream, whether it returns or raises in its property part, leaves
    the loading particle with the location, reference location and id
    that were set. *)
Theorem setters_reach_the_loaded_particle
    dim spacedim p mem x y i Q mem2 rest :
  length x = spacedim → length y = dim → particle_wf p mem →
  ∃ s1,
    (set_location x ;;; set_reference_location y ;;; set_id i ;;; save)
      (mkState p mem []) = (Ok tt, s1) ∧
    property_pool (this s1) = property_pool p ∧
    properties (this s1) = properties p ∧
    pools s1 = mem ∧
    indexable (this s1) = x ∧
    ∀ r s2,
      load dim spacedim (mkState Q mem2 (archive s1 ++ rest)) = (r, s2) →
      get_location (this s2) = x ∧
      get_reference_location (this s2) = y ∧
      get_id (this s2) = i.
Proof.
  intros Hx Hy Hwf.
  set (P := mkParticle x y i (property_pool p) (properties p)).
  assert (HwfP : particle_wf P mem).
  { intros H. apply has_properties_true in H as (a & k & Ha & Hk).
    destruct Hwf as (a' & k' & pool & Ha' & Hk' & Hrest).
    { apply has_properties_true. eauto. }
    exists a', k', pool. split; [done|]. by split. }
  pose proof (save_run (mkState P mem []) HwfP) as Hsave. simpl in Hsave.
  eexists. split.
  { unfold set_location, set_reference_location, set_id. run.
    fold P. exact Hsave. }
  simpl. do 4 (split; [done|]).
  intros r s2 Hload. rewrite <- (assoc_L (++)) in Hload.
  rewrite load_header in Hload by done.
  pose proof (load_properties_same_header
                (N.of_nat (property_count P mem))
                (mkState (mkParticle x y i (property_pool Q) (properties Q))
                         mem2
                         ((PDouble <$> default [] (property_values P mem))
                          ++ rest))) as H.
  rewrite Hload in H. by destruct H as (? & ? & ?).
Qed.

(** ** Rebinding and the bookkeeping of the pools *)

Lemma released_wf pool i :
  pool_wf pool → i < n_slots pool → i ∉ free_list pool →
  pool_wf (released pool i).
Proof.
  intros [Ha Hf Hn Hs] Hi Hnin. split; simpl; try done.
  - intros j Hj. apply elem_of_cons in Hj as [->|Hj]; [done|by apply Hf].
  - by constructor.
Qed.

Lemma released_live pool i j :
  live pool j → j ≠ i → live (released pool i) j.
Proof.
  intros [Hlt Hnin] Hne. split; [done|]. simpl. intros H.
  apply elem_of_cons in H as [?|?]; done.
Qed.

Lemma released_live_slots pool i :
  live_slots (released pool i) = (live_slots pool - 1)%Z.
Proof. unfold live_slots. simpl length. simpl n_slots. lia. Qed.

Lemma pool_with_copy_live_slots npool l :
  live_slots (pool_with_copy npool l) = (live_slots npool + 1)%Z.
Proof. apply allocate_live_slots. Qed.

(** [set_property_pool] on a particle with a live handle, in full: the
    state it returns and the pools it leaves at the two addresses. *)
Lemma set_property_pool_live p mem ar a i pool new npool :
  owns p mem a i pool → live pool i →
  mem !! new = Some npool → pool_wf npool →
  n_properties_per_slot pool ≤ n_properties_per_slot npool →
  ∃ l, slot_values pool i = Some l ∧
    length l = n_properties_per_slot pool ∧
    let pn := pool_with_copy npool l in
    let pa := released (pool_behind a new pool pn) i in
    set_property_pool new (mkState p mem ar) =
      (Ok tt,
       mkState (mkParticle (location p) (reference_location p) (id p)
                           (Some new) (handle (allocated_slot npool)))
               (<[a := pa]> (<[new := pn]> mem)) ar) ∧
    pool_wf pn ∧ pool_wf pa ∧
    live pn (allocated_slot npool) ∧
    ¬ live npool (allocated_slot npool) ∧
    (a = new → allocated_slot npool ≠ i).
Proof.
  intros Hown Hlive Hnew Hnwf Hle.
  destruct (set_property_pool_owned p mem ar a i pool new npool)
    as (l & Hl & Hlen & Hrun); [done..|].
  destruct Hown as (Ha & Hi & Hp & Hwf & Hlt).
  exists l. split; [done|]. split; [done|]. intros pn pa.
  cbv zeta in Hrun.
  rewrite bool_decide_eq_false_2 in Hrun
    by by apply (pool_behind_not_free a new mem).
  assert (Hfresh : ¬ live npool (allocated_slot npool))
    by by apply allocate_not_live.
  assert (Hwfn : pool_wf pn) by (apply pool_with_copy_wf; [done|lia]).
  split; [done|]. split; [done|]. split.
  { apply released_wf.
    - unfold pool_behind. by destruct (decide (a = new)).
    - unfold pool_behind. destruct (decide (a = new)) as [->|]; [|done].
      assert (pool = npool) as -> by congruence.
      by destruct (pool_with_copy_live npool l i Hlive).
    - by apply (pool_behind_not_free a new mem). }
  split; [by apply (allocate_live npool)|]. split; [done|].
  intros -> E. apply Hfresh. rewrite E.
  by assert (npool = pool) as -> by congruence.
Qed.

(** [set_property_pool] neither leaks nor duplicates slots: between two
    pools the old one has one live slot less and the target one more;
    within one pool the number of live slots is as before; no third pool
    is touched. *)
Theorem set_property_pool_slot_accounting p mem ar a i pool new npool :
  owns p mem a i pool → live pool i →
  mem !! new = Some npool → pool_wf npool →
  n_properties_per_slot pool ≤ n_properties_per_slot npool →
  ∃ s' pa pn,
    set_property_pool new (mkState p mem ar) = (Ok tt, s') ∧
    pools s' !! a = Some pa ∧ pools s' !! new = Some pn ∧
    (a ≠ new →
     live_slots pa = (live_slots pool - 1)%Z ∧
     live_slots pn = (live_slots npool + 1)%Z) ∧
    (a = new → pn = pa ∧ live_slots pn = live_slots pool) ∧
    (∀ b, b ≠ a → b ≠ new → pools s' !! b = mem !! b).
Proof.
  intros Hown Hlive Hnew Hnwf Hle.
  destruct (set_property_pool_live p mem ar a i pool new npool)
    as (l & Hl & Hlen & Hrun & _); [done..|].
  destruct Hown as (Ha & Hi & Hp & Hwf & Hlt).
  destruct (decide (a = new)) as [->|Hne].
  - assert (npool = pool) as -> by congruence.
    do 3 eexists. split; [exact Hrun|]. simpl.
    split; [apply lookup_insert_eq|]. split; [apply lookup_insert_eq|].
    split; [done|]. split.
    + intros _. split; [done|]. unfold pool_behind.
      rewrite decide_True by done.
      rewrite released_live_slots, pool_with_copy_live_slots. lia.
    + intros b Hb _. by rewrite !lookup_insert_ne.
  - do 3 eexists. split; [exact Hrun|]. simpl.
    split; [apply lookup_insert_eq|].
    split; [rewrite lookup_insert_ne by done; apply lookup_insert_eq|].
    split; [|split; [done|]].
    + intros _. unfold pool_behind. rewrite decide_False by done.
      split; [apply released_live_slots|apply pool_with_copy_live_slots].
    + intros b Hb Hb'. by rewrite !lookup_insert_ne.
Qed.

(** ** The member functions of the header keep handles unique *)

Lemma ownership_replace ps (mem mem' : gmap nat PropertyPool) m p p' :
  ownership ps mem → ps !! m = Some p →
  (∀ n q, n ≠ m → ps !! n = Some q → has_properties q = true →
     ∃ a i pool, owns q mem' a i pool ∧ live pool i ∧
       (property_pool p' = Some a → properties p' ≠ handle i)) →
  (has_properties p' = true →
   ∃ a i pool, owns p' mem' a i pool ∧ live pool i) →
  ownership (<[m := p']> ps) mem'.
Proof.
  intros [Hown Hdist] Hm Hothers Hself. split.
  - intros q Hq Hhas. apply list_elem_of_lookup in Hq as [n Hn].
    apply list_lookup_insert_Some in Hn as [(-> & <- & _)|[Hne Hn]].
    + by apply Hself.
    + destruct (Hothers n q) as (a & i & pool & H1 & H2 & _); eauto.
  - intros n1 n2 q1 q2 H1 H2 Hne Hq1 Hq2 Hpool.
    apply list_lookup_insert_Some in H1 as [(-> & <- & _)|[Hne1 H1]];
      apply list_lookup_insert_Some in H2 as [(-> & <- & _)|[Hne2 H2]].
    + done.
    + destruct (Hothers n2 q2) as (a & i & pool & (Ha & Hi & _) & _ & Hd);
        [done..|].
      rewrite Hi. apply Hd. congruence.
    + destruct (Hothers n1 q1) as (a & i & pool & (Ha & Hi & _) & _ & Hd);
        [done..|].
      rewrite Hi. intros E. apply Hd; congruence.
    + by apply (Hdist n1 n2).
Qed.

(** [set_property_pool] keeps the handles of the live particles apart: if
    no two of them hold the same slot of the same pool before the call,
    none do after it, each particle that has properties still holds a
    live slot, and the rebound particle holds a slot of the target pool
    that no other particle holds. *)
Theorem set_property_pool_keeps_handles_unique ps mem ar m p new npool :
  ownership ps mem → ps !! m = Some p →
  mem !! new = Some npool → pool_wf npool →
  property_count p mem ≤ n_properties_per_slot npool →
  ∃ s',
    set_property_pool new (mkState p mem ar) = (Ok tt, s') ∧
    ownership (<[m := this s']> ps) (pools s').
Proof.
  intros Hinv Hm Hnew Hnwf Hle. pose proof Hinv as [Hown Hdist].
  assert (Hin : p ∈ ps) by (apply list_elem_of_lookup; eauto).
  destruct (has_properties p) eqn:Hhas.
  - destruct (Hown p Hin Hhas) as (a & i & pool & HownP & Hlive).
    destruct (owns_values _ _ _ _ _ HownP) as (_ & _ & _ & _ & Hcnt).
    rewrite Hcnt in Hle.
    destruct (set_property_pool_live p mem ar a i pool new npool)
      as (l & Hl & Hlen & Hrun & Hwfn & Hwfa & Hlivej & Hfresh & Hji);
      [done..|].
    destruct HownP as (Ha & Hi & Hp & Hwf & Hlt).
    set (pn := pool_with_copy npool l) in *.
    set (pb := pool_behind a new pool pn) in *.
    set (j := allocated_slot npool) in *.
    assert (Hpb : ∀ i', live pool i' → live pb i').
    { intros i' Hi'. subst pb. unfold pool_behind.
      destruct (decide (a = new)) as [->|]; [|done].
      assert (pool = npool) as -> by congruence.
      by apply pool_with_copy_live. }
    eexists. split; [exact Hrun|]. simpl.
    apply (ownership_replace ps mem _ m p); [done|done| |].
    + intros n q Hn Hq Hqhas.
      destruct (Hown q) as (a' & i' & pool0 & (Ha' & Hi' & Hp' & Hwf0 & Hlt0) & Hl0);
        [apply list_elem_of_lookup; eauto|done|].
      destruct (decide (a' = a)) as [->|Hna].
      * assert (pool0 = pool) as -> by congruence.
        assert (Hii : i' ≠ i).
        { intros ->. apply (Hdist n m q p); try done; congruence. }
        exists a, i', (released pb i). split; [|split].
        -- split; [done|]. split; [done|]. split; [apply lookup_insert_eq|].
           split; [done|]. by destruct (Hpb i' Hl0).
        -- apply released_live; [by apply Hpb|done].
        -- simpl. intros [= <-] [= E]. apply Hfresh. fold j. rewrite E.
           by assert (npool = pool) as -> by congruence.
      * destruct (decide (a' = new)) as [->|Hnn].
        -- assert (pool0 = npool) as -> by congruence.
           exists new, i', pn. split; [|split].
           ++ split; [done|]. split; [done|].
              split; [by rewrite lookup_insert_ne, lookup_insert_eq|].
              split; [done|]. by destruct (pool_with_copy_live npool l i' Hl0).
           ++ by apply pool_with_copy_live.
           ++ simpl. intros _ [= E]. apply Hfresh. fold j. by rewrite E.
        -- exists a', i', pool0. split; [|split; [done|]].
           ++ split; [done|]. split; [done|].
              split; [by rewrite !lookup_insert_ne|done].
           ++ simpl. intros [= E]. done.
    + intros _. destruct (decide (a = new)) as [->|Hne].
      * exists new, j, (released pb i). split; [|apply released_live].
        -- split; [done|]. split; [done|]. split; [apply lookup_insert_eq|].
           split; [done|]. simpl. subst pb. unfold pool_behind.
           rewrite decide_True by done. by destruct Hlivej.
        -- subst pb. unfold pool_behind. by rewrite decide_True.
        -- by apply Hji.
      * exists new, j, pn. split; [|done].
        split; [done|]. split; [done|].
        split; [by rewrite lookup_insert_ne, lookup_insert_eq|].
        split; [done|]. by destruct Hlivej.
  - rewrite set_property_pool_no_properties by done.
    eexists. split; [done|]. simpl.
    apply (ownership_replace ps mem mem m p); [done|done| |].
    + intros n q Hn Hq Hqhas.
      destruct (Hown q) as (a' & i' & pool0 & H1 & H2);
        [apply list_elem_of_lookup; eauto|done|].
      exists a', i', pool0. split; [done|]. split; [done|]. done.
    + intros H. apply has_properties_true in H as (? & ? & ? & ?). done.
Qed.

Section KeepsUnique.

Variable ps : list Particle.
Variable m : nat.
Hypothesis m_lt : m < length ps.

Lemma unique_at_lookup s : <[m := this s]> ps !! m = Some (this s).
Proof. by apply list_lookup_insert_eq. Qed.

Lemma unique_at_replace s (mem' : gmap nat PropertyPool) p' ar :
  unique_at ps m s → all_wf mem' →
  (∀ n q, n ≠ m → <[m := this s]> ps !! n = Some q →
     has_properties q = true →
     ∃ a i pool, owns q mem' a i pool ∧ live pool i ∧
       (property_pool p' = Some a → properties p' ≠ handle i)) →
  (has_properties p' = true →
   ∃ a i pool, owns p' mem' a i pool ∧ live pool i) →
  unique_at ps m (mkState p' mem' ar).
Proof.
  intros [Hown _] Hwf Hothers Hself. split; [|done]. simpl.
  rewrite <- (list_insert_insert_eq ps m p' (this s)).
  apply (ownership_replace _ (pools s) mem' m (this s));
    [done|apply unique_at_lookup|done|done].
Qed.

(** The other particles, as the invariant presents them. *)
Lemma unique_at_others s n q :
  unique_at ps m s → n ≠ m → <[m := this s]> ps !! n = Some q →
  has_properties q = true →
  ∃ a i pool, owns q (pools s) a i pool ∧ live pool i ∧
    (property_pool (this s) = Some a → properties (this s) ≠ handle i).
Proof.
  intros [[Hown Hdist] _] Hn Hq Hhas.
  destruct (Hown q) as (a & i & pool & H1 & H2);
    [apply list_elem_of_lookup; eauto|done|].
  exists a, i, pool. split; [done|]. split; [done|].
  intros Ha Hi. destruct H1 as (Ha' & Hi' & _).
  apply (Hdist m n (this s) q); try done.
  - apply unique_at_lookup.
  - apply has_properties_true. eauto.
  - congruence.
  - congruence.
Qed.

Lemma unique_at_self s :
  unique_at ps m s → has_properties (this s) = true →
  ∃ a i pool, owns (this s) (pools s) a i pool ∧ live pool i.
Proof.
  intros [[Hown _] _] Hhas. apply Hown; [|done].
  apply list_elem_of_lookup. exists m. apply unique_at_lookup.
Qed.

(** A change of the location, the reference location or the id. *)
Lemma unique_at_header s p' ar :
  unique_at ps m s →
  property_pool p' = property_pool (this s) →
  properties p' = properties (this s) →
  unique_at ps m (mkState p' (pools s) ar).
Proof.
  intros Hinv Ha Hi. apply (unique_at_replace s); [done|by destruct Hinv| |].
  - intros n q Hn Hq Hhas.
    destruct (unique_at_others s n q) as (a & i & pool & H1 & H2 & H3);
      [done..|].
    exists a, i, pool. rewrite Ha, Hi. done.
  - intros Hhas. destruct (unique_at_self s Hinv) as (a & i & pool & H1 & H2).
    { apply has_properties_true in Hhas as (a & i & ? & ?).
      apply has_properties_true. exists a, i. split; congruence. }
    exists a, i, pool. split; [|done].
    destruct H1 as (? & ? & ?). split; [congruence|]. split; [congruence|done].
Qed.

(** A write into the arena of a pool. *)
Lemma unique_at_written s a pool b l ar :
  unique_at ps m s → pools s !! a = Some pool →
  b + length l ≤ length (arena pool) →
  unique_at ps m (mkState (this s) (<[a := written pool b l]> (pools s)) ar).
Proof.
  intros Hinv Hp Hr. pose proof Hinv as [_ Hwf].
  assert (Hwf' : all_wf (<[a := written pool b l]> (pools s))).
  { intros a' pool' H. apply lookup_insert_Some in H as [[<- <-]|[_ H]].
    - apply written_wf; [by apply (Hwf a)|done].
    - by apply (Hwf a'). }
  assert (Hmove : ∀ q a' i pool0,
            owns q (pools s) a' i pool0 → live pool0 i →
            ∃ pool1, owns q (<[a := written pool b l]> (pools s)) a' i pool1 ∧
                     live pool1 i).
  { intros q a' i pool0 (Ha' & Hi & Hp0 & Hwf0 & Hlt) Hl.
    destruct (decide (a' = a)) as [->|Hne].
    - assert (pool0 = pool) as -> by congruence.
      exists (written pool b l). split; [|done].
      split; [done|]. split; [done|]. split; [apply lookup_insert_eq|].
      split; [by apply written_wf|done].
    - exists pool0. split; [|done]. split; [done|]. split; [done|].
      split; [by rewrite lookup_insert_ne|done]. }
  apply (unique_at_replace s); [done|done| |].
  - intros n q Hn Hq Hhas.
    destruct (unique_at_others s n q) as (a' & i & pool0 & H1 & H2 & H3);
      [done..|].
    destruct (Hmove q a' i pool0 H1 H2) as (pool1 & H4 & H5).
    exists a', i, pool1. split; [done|]. split; [done|exact H3].
  - intros Hhas.
    destruct (unique_at_self s Hinv Hhas) as (a' & i & pool0 & H1 & H2).
    destruct (Hmove _ a' i pool0 H1 H2) as (pool1 & H4 & H5).
    exists a', i, pool1. by split.
Qed.

(** The allocation of a slot for a particle that has none. *)
Lemma unique_at_allocated s a pool ar :
  unique_at ps m s → property_pool (this s) = Some a →
  properties (this s) = invalid_handle → pools s !! a = Some pool →
  unique_at ps m
    (mkState (with_properties (handle (allocated_slot pool)) (this s))
             (<[a := (allocate pool).2]> (pools s)) ar).
Proof.
  intros Hinv Ha Hi Hp. pose proof Hinv as [_ Hwf].
  assert (Hwfp : pool_wf pool) by by apply (Hwf a).
  assert (Hwf' : all_wf (<[a := (allocate pool).2]> (pools s))).
  { intros a' pool' H. apply lookup_insert_Some in H as [[<- <-]|[_ H]].
    - by apply allocate_wf.
    - by apply (Hwf a'). }
  apply (unique_at_replace s); [done|done| |].
  - intros n q Hn Hq Hhas.
    destruct (unique_at_others s n q)
      as (a' & i & pool0 & (Ha' & Hi' & Hp0 & Hwf0 & Hlt) & Hl & _); [done..|].
    destruct (decide (a' = a)) as [->|Hne].
    + assert (pool0 = pool) as -> by congruence.
      exists a, i, (allocate pool).2.
      pose proof (allocate_keeps_live pool i Hl) as Hl'.
      split; [|split; [done|]].
      * split; [done|]. split; [done|]. split; [apply lookup_insert_eq|].
        split; [by apply allocate_wf|by destruct Hl'].
      * simpl. intros _ [= E]. apply (allocate_not_live pool Hwfp).
        by rewrite E.
    + exists a', i, pool0. split; [|split; [done|]].
      * split; [done|]. split; [done|].
        split; [by rewrite lookup_insert_ne|done].
      * simpl. rewrite Ha. intros [= E]. done.
  - intros _. exists a, (allocated_slot pool), (allocate pool).2.
    pose proof (allocate_live pool Hwfp) as Hl'. split; [|done].
    split; [done|]. split; [done|]. split; [apply lookup_insert_eq|].
    split; [by apply allocate_wf|by destruct Hl'].
Qed.

End KeepsUnique.

Lemma keeps_ret {A} ps m (a : A) : keeps_unique ps m (ret a).
Proof. by intros s H. Qed.

Lemma keeps_raise {A} ps m e : keeps_unique ps m (raise (A := A) e).
Proof. by intros s H. Qed.

Lemma keeps_bind {A B} ps m (c : M A) (k : A → M B) :
  keeps_unique ps m c → (∀ a, keeps_unique ps m (k a)) →
  keeps_unique ps m (bind c k).
Proof.
  intros Hc Hk s H. unfold bind. specialize (Hc s H).
  destruct (c s) as [[a|e] s']; [by apply Hk|done].
Qed.

Lemma keeps_Assert ps m c e : keeps_unique ps m (Assert c e).
Proof. intros s H. by destruct c. Qed.

Lemma keeps_ar_next ps m : m < length ps → keeps_unique ps m ar_next.
Proof.
  intros Hm s H. unfold ar_next. destruct (archive s) as [|x rest]; [done|].
  simpl. by apply (unique_at_header ps m Hm s).
Qed.

Lemma keeps_ar_read_doubles ps m k :
  m < length ps → keeps_unique ps m (ar_read_doubles k).
Proof.
  intros Hm. induction k as [|k IH]; [apply keeps_ret|].
  simpl. apply keeps_bind.
  - unfold ar_read_double. apply keeps_bind; [by apply keeps_ar_next|].
    intros [d| |]; (apply keeps_ret || apply keeps_raise).
  - intros d. apply keeps_bind; [done|]. intros l. apply keeps_ret.
Qed.

Lemma keeps_modify_this ps m f :
  m < length ps →
  (∀ p, property_pool (f p) = property_pool p ∧
        properties (f p) = properties p) →
  keeps_unique ps m (modify_this f).
Proof.
  intros Hm Hf s H. unfold modify_this. run.
  destruct (Hf (this s)). by apply (unique_at_header ps m Hm s).
Qed.

Lemma keeps_get_properties ps m :
  m < length ps → keeps_unique ps m get_properties.
Proof.
  intros Hm s H. unfold get_properties. unfold bind at 1. unfold get_this at 1.
  destruct (property_pool (this s)) as [a|] eqn:Ha; [|done].
  destruct (properties (this s)) as [|i] eqn:Hi.
  - rewrite bool_decide_eq_true_2 by done.
    unfold allocate_properties_array. run.
    destruct (pools s !! a) as [pool|] eqn:Hp; [|done]. simpl.
    rewrite pool_get_properties_state, allocate_handle.
    by apply (unique_at_allocated ps m Hm s).
  - rewrite bool_decide_eq_false_2 by done. run.
    by rewrite pool_get_properties_state.
Qed.

Lemma keeps_write_doubles ps m v l :
  m < length ps → keeps_unique ps m (write_doubles v l).
Proof.
  intros Hm s H. unfold write_doubles. run.
  destruct (pools s !! av_pool v) as [pool|] eqn:Hp; [|done].
  destruct (decide (av_data v + length l ≤ length (arena pool))).
  - rewrite bool_decide_eq_true_2 by done. simpl.
    by apply (unique_at_written ps m Hm s).
  - by rewrite bool_decide_eq_false_2.
Qed.

Lemma keeps_load ps m dim spacedim :
  m < length ps → keeps_unique ps m (load dim spacedim).
Proof.
  intros Hm. unfold load.
  apply keeps_bind; [by apply keeps_ar_read_doubles|]. intros x.
  apply keeps_bind; [by apply keeps_modify_this|]. intros _.
  apply keeps_bind; [by apply keeps_ar_read_doubles|]. intros y.
  apply keeps_bind; [by apply keeps_modify_this|]. intros _.
  apply keeps_bind.
  { unfold ar_read_index. apply keeps_bind; [by apply keeps_ar_next|].
    intros [| |]; intros; (apply keeps_ret || apply keeps_raise). }
  intros i. apply keeps_bind; [by apply keeps_modify_this|]. intros _.
  apply keeps_bind.
  { unfold ar_read_unsigned. apply keeps_bind; [by apply keeps_ar_next|].
    intros [| |]; intros; (apply keeps_ret || apply keeps_raise). }
  intros n. destruct (bool_decide (0 < n)%N); [|apply keeps_ret].
  apply keeps_bind; [by apply keeps_get_properties|]. intros v.
  apply keeps_bind; [apply keeps_Assert|]. intros _.
  apply keeps_bind; [by apply keeps_get_properties|]. intros v'.
  apply keeps_bind; [by apply keeps_ar_read_doubles|]. intros l.
  by apply keeps_write_doubles.
Qed.

(** [load] never makes two live particles share a slot, whatever the
    archive holds and whether it returns or raises: if the handles of the
    live particles are unique and the pools well formed before the call,
    they are in the state [load] leaves behind, with the loading particle
    as [load] left it. *)
Theorem load_keeps_handles_unique dim spacedim ps m p mem ar :
  ownership ps mem → all_wf mem → ps !! m = Some p →
  ownership (<[m := this (load dim spacedim (mkState p mem ar)).2]> ps)
            (pools (load dim spacedim (mkState p mem ar)).2) ∧
  all_wf (pools (load dim spacedim (mkState p mem ar)).2).
Proof.
  intros Hinv Hwf Hm.
  assert (Hlt : m < length ps) by (apply lookup_lt_is_Some; eauto).
  apply (keeps_load ps m dim spacedim Hlt (mkState p mem ar)).
  split; [|done]. simpl. by rewrite list_insert_id.
Qed.

(** ** The further properties at concrete states *)

Ltac concrete_all_wf :=
  intros ? ? Hlook; unfold ex_mem in Hlook;
  repeat (apply lookup_insert_Some in Hlook as [[<- <-]|[_ Hlook]];
          [concrete_wf|]);
  apply lookup_singleton_Some in Hlook as [<- <-]; concrete_wf.

Lemma load_reuses_the_handle_witness :
  ∃ pool',
    load 2 2
         (mkState ex_p ex_mem
                  (header [1; 2]%Z [3; 4]%Z 9%N (N.of_nat (length [30; 31]%Z))
                   ++ (PDouble <$> [30; 31]%Z) ++ [PUInt 99])) =
      (Ok tt,
       mkState (mkParticle [1; 2]%Z [3; 4]%Z 9%N (Some 0) (handle 1))
               (<[0 := pool']> ex_mem) [PUInt 99]) ∧
    n_slots pool' = n_slots ex_pool ∧
    free_list pool' = free_list ex_pool ∧
    slot_values pool' 1 = Some [30; 31]%Z ∧
    ∀ j, j ≠ 1 → slot_values pool' j = slot_values ex_pool j.
Proof.
  apply (load_reuses_the_handle 2 2 ex_p ex_mem 0 1 ex_pool);
    [reflexivity|reflexivity|concrete_owns|reflexivity|simpl; lia].
Defined.

Lemma load_allocates_once_witness :
  ∃ pool',
    load 2 2
         (mkState ex_q ex_mem
                  (header [1; 2]%Z [3; 4]%Z 9%N (N.of_nat (length [30; 31]%Z))
                   ++ (PDouble <$> [30; 31]%Z) ++ [])) =
      (Ok tt,
       mkState (mkParticle [1; 2]%Z [3; 4]%Z 9%N (Some 5)
                           (handle (allocated_slot ex_pool2)))
               (<[5 := pool']> ex_mem) []) ∧
    ¬ live ex_pool2 (allocated_slot ex_pool2) ∧
    live pool' (allocated_slot ex_pool2) ∧
    live_slots pool' = (live_slots ex_pool2 + 1)%Z ∧
    slot_values pool' (allocated_slot ex_pool2) = Some [30; 31]%Z ∧
    ∀ j, live ex_pool2 j →
         live pool' j ∧ slot_values pool' j = slot_values ex_pool2 j.
Proof.
  apply (load_allocates_once 2 2 ex_q ex_mem 5 ex_pool2);
    [reflexivity|reflexivity|reflexivity|reflexivity|reflexivity
    |concrete_wf|reflexivity|simpl; lia].
Defined.

Lemma load_mismatch_keeps_header_and_slot_witness :
  load 2 2 (mkState ex_q3 ex_mem (header [1; 2]%Z [3; 4]%Z 9%N 2%N ++ [])) =
    (Raise (ExcMessage
              (load_message 2%N (N.of_nat (n_properties_per_slot ex_pool3)))),
     mkState (mkParticle [1; 2]%Z [3; 4]%Z 9%N (Some 6)
                         (handle (allocated_slot ex_pool3)))
             (<[6 := (allocate ex_pool3).2]> ex_mem) []) ∧
  has_properties ex_q3 = false ∧
  has_properties (mkParticle [1; 2]%Z [3; 4]%Z 9%N (Some 6)
                             (handle (allocated_slot ex_pool3))) = true ∧
  live_slots (allocate ex_pool3).2 = (live_slots ex_pool3 + 1)%Z.
Proof.
  apply (load_mismatch_keeps_header_and_slot 2 2 ex_q3 ex_mem 6 ex_pool3);
    [reflexivity|reflexivity|reflexivity|reflexivity|reflexivity
    |reflexivity|discriminate].
Defined.

Lemma load_unbound_raises_witness :
  load 2 2 (mkState ex_unbound ex_mem
                    (header [1; 2]%Z [3; 4]%Z 9%N 2%N ++ [PDouble 1%Z])) =
    (Raise ExcInternalError,
     mkState (mkParticle [1; 2]%Z [3; 4]%Z 9%N None (properties ex_unbound))
             ex_mem [PDouble 1%Z]).
Proof.
  apply (load_unbound_raises 2 2 ex_unbound ex_mem); reflexivity.
Defined.

Lemma save_after_load_witness :
  ∃ s2,
    load 2 2
         (mkState ex_q ex_mem
                  (header [1; 2]%Z [3; 4]%Z 9%N (N.of_nat (length [30; 31]%Z))
                   ++ (PDouble <$> [30; 31]%Z) ++ [])) = (Ok tt, s2) ∧
    archive s2 = [] ∧
    save (mkState (this s2) (pools s2) []) =
      (Ok tt,
       mkState (this s2) (pools s2)
               (header [1; 2]%Z [3; 4]%Z 9%N (N.of_nat (length [30; 31]%Z))
                ++ (PDouble <$> [30; 31]%Z))).
Proof.
  apply (save_after_load 2 2 ex_q ex_mem 5 ex_pool2);
    [reflexivity|reflexivity|reflexivity|reflexivity|concrete_wf
    |discriminate|reflexivity].
Defined.

Lemma setters_reach_the_loaded_particle_witness :
  ∃ s1,
    (set_location [8; 9]%Z ;;; set_reference_location [6; 7]%Z ;;;
     set_id 42%N ;;; save) (mkState ex_p ex_mem []) = (Ok tt, s1) ∧
    property_pool (this s1) = property_pool ex_p ∧
    properties (this s1) = properties ex_p ∧
    pools s1 = ex_mem ∧
    indexable (this s1) = [8; 9]%Z ∧
    ∀ r s2,
      load 2 2 (mkState ex_unbound ex_mem (archive s1 ++ [])) = (r, s2) →
      get_location (this s2) = [8; 9]%Z ∧
      get_reference_location (this s2) = [6; 7]%Z ∧
      get_id (this s2) = 42%N.
Proof.
  apply (setters_reach_the_loaded_particle 2 2 ex_p ex_mem);
    [reflexivity|reflexivity|].
  intros _. exists 0, 1, ex_pool. concrete_owns.
Defined.

Lemma set_property_pool_slot_accounting_witness :
  ∃ s' pa pn,
    set_property_pool 5 (mkState ex_p ex_mem []) = (Ok tt, s') ∧
    pools s' !! 0 = Some pa ∧ pools s' !! 5 = Some pn ∧
    (0 ≠ 5 →
     live_slots pa = (live_slots ex_pool - 1)%Z ∧
     live_slots pn = (live_slots ex_pool2 + 1)%Z) ∧
    (0 = 5 → pn = pa ∧ live_slots pn = live_slots ex_pool) ∧
    (∀ b, b ≠ 0 → b ≠ 5 → pools s' !! b = ex_mem !! b).
Proof.
  apply (set_property_pool_slot_accounting ex_p ex_mem [] 0 1 ex_pool 5 ex_pool2);
    [concrete_owns|concrete_live|reflexivity|concrete_wf|simpl; lia].
Defined.

Lemma set_property_pool_keeps_handles_unique_witness :
  ∃ s',
    set_property_pool 5 (mkState ex_p ex_mem []) = (Ok tt, s') ∧
    ownership (<[1 := this s']> [ex_p0; ex_p]) (pools s').
Proof.
  apply (set_property_pool_keeps_handles_unique [ex_p0; ex_p] ex_mem [] 1 ex_p
                                                5 ex_pool2);
    [concrete_ownership|reflexivity|reflexivity|concrete_wf
    |vm_compute; lia].
Defined.

Lemma load_keeps_handles_unique_witness :
  ownership
    (<[1 := this (load 2 2 (mkState ex_q ex_mem
                    (header [1; 2]%Z [3; 4]%Z 9%N 2%N ++ [PDouble 30%Z]))).2]>
       [ex_p0; ex_q; ex_p])
    (pools (load 2 2 (mkState ex_q ex_mem
              (header [1; 2]%Z [3; 4]%Z 9%N 2%N ++ [PDouble 30%Z]))).2) ∧
  all_wf (pools (load 2 2 (mkState ex_q ex_mem
                   (header [1; 2]%Z [3; 4]%Z 9%N 2%N ++ [PDouble 30%Z]))).2).
Proof.
  apply (load_keeps_handles_unique 2 2 [ex_p0; ex_q; ex_p] 1 ex_q ex_mem);
    [|concrete_all_wf|reflexivity].
  split.
  - intros q Hin Hhas.
    apply elem_of_cons in Hin as [->|Hin];
      [exists 0, 0, ex_pool; split; [concrete_owns|concrete_live]|].
    apply elem_of_cons in Hin as [->|Hin]; [discriminate|].
    apply elem_of_cons in Hin as [->|Hin];
      [exists 0, 1, ex_pool; split; [concrete_owns|concrete_live]|].
    by apply elem_of_nil in Hin.
  - intros [|[|[|?]]] [|[|[|?]]] ? ? Hm Hn ? H1 H2 _; simpl in *; try done;
      injection Hm as <-; injection Hn as <-; discriminate.
Defined.

(** The load above runs out of archive after it has allocated a slot. *)
Example load_truncated_record :
  ∃ s', load 2 2 (mkState ex_q ex_mem
                    (header [1; 2]%Z [3; 4]%Z 9%N 2%N ++ [PDouble 30%Z]))
          = (Raise ExcArchive, s') ∧
        properties (this s') = handle 0 ∧ archive s' = [].
Proof. eexists. split; [reflexivity|]. split; reflexivity. Qed.

(** Rebinding a particle to another pool of the same slot size and back:
    both calls return, the particle is bound to its first pool again with
    the property values it had, and each of the two pools has as many
    live slots as before. *)
Theorem set_property_pool_there_and_back p mem ar a i pool b npool :
  owns p mem a i pool → live pool i →
  mem !! b = Some npool → pool_wf npool → a ≠ b →
  n_properties_per_slot npool = n_properties_per_slot pool →
  ∃ s1 s2 pa pb,
    set_property_pool b (mkState p mem ar) = (Ok tt, s1) ∧
    property_pool (this s1) = Some b ∧
    set_property_pool a s1 = (Ok tt, s2) ∧
    property_pool (this s2) = Some a ∧
    property_values (this s2) (pools s2) = property_values p mem ∧
    pools s2 !! a = Some pa ∧ pools s2 !! b = Some pb ∧
    live_slots pa = live_slots pool ∧ live_slots pb = live_slots npool.
Proof.
  intros Hown Hlive Hb Hwfb Hab Hn.
  destruct (owns_values _ _ _ _ _ Hown) as (l & Hv & Hsl & Hlen & _).
  destruct (set_property_pool_live p mem ar a i pool b npool)
    as (l1 & Hl1 & _ & Hrun1 & Hwfn & Hwfa & Hlivej & _ & _);
    [done|done|done|done|lia|].
  assert (l1 = l) as -> by congruence.
  cbv zeta in Hrun1, Hwfa. unfold pool_behind in Hrun1, Hwfa.
  rewrite decide_False in Hrun1, Hwfa by done.
  set (pn := pool_with_copy npool l) in *.
  set (pa1 := released pool i) in *.
  set (j := allocated_slot npool) in *.
  set (p1 := mkParticle (location p) (reference_location p) (id p)
                        (Some b) (handle j)) in *.
  set (mem1 := <[a := pa1]> (<[b := pn]> mem)) in *.
  assert (Hown1 : owns p1 mem1 b j pn).
  { split; [done|]. split; [done|].
    split; [subst mem1; by rewrite lookup_insert_ne, lookup_insert_eq|].
    split; [done|by destruct Hlivej]. }
  assert (Hsame1 : slot_values pn j = Some l)
    by (apply pool_with_copy_same; [done|lia]).
  destruct (set_property_pool_live p1 mem1 ar b j pn a pa1)
    as (l2 & Hl2 & _ & Hrun2 & Hwfn2 & _);
    [done|done|subst mem1; apply lookup_insert_eq|done
    |change (n_properties_per_slot pn)
       with (n_properties_per_slot (allocate npool).2);
     rewrite allocate_size; simpl; lia|].
  assert (l2 = l) as -> by congruence.
  cbv zeta in Hrun2. unfold pool_behind in Hrun2.
  rewrite decide_False in Hrun2 by done.
  exists (mkState p1 mem1 ar). do 3 eexists.
  split; [exact Hrun1|]. split; [done|]. split; [exact Hrun2|]. simpl.
  split; [done|]. split; [|split; [|split; [|split]]].
  - rewrite Hv. unfold property_values. simpl.
    rewrite lookup_insert_ne, lookup_insert_eq by done. simpl.
    apply pool_with_copy_same; [done|]. simpl. lia.
  - by rewrite lookup_insert_ne, lookup_insert_eq.
  - apply lookup_insert_eq.
  - rewrite pool_with_copy_live_slots. subst pa1.
    rewrite released_live_slots. lia.
  - rewrite released_live_slots. subst pn.
    rewrite pool_with_copy_live_slots. lia.
Qed.

Lemma set_property_pool_there_and_back_witness :
  ∃ s1 s2 pa pb,
    set_property_pool 5 (mkState ex_p ex_mem []) = (Ok tt, s1) ∧
    property_pool (this s1) = Some 5 ∧
    set_property_pool 0 s1 = (Ok tt, s2) ∧
    property_pool (this s2) = Some 0 ∧
    property_values (this s2) (pools s2) = property_values ex_p ex_mem ∧
    pools s2 !! 0 = Some pa ∧ pools s2 !! 5 = Some pb ∧
    live_slots pa = live_slots ex_pool ∧ live_slots pb = live_slots ex_pool2.
Proof.
  apply (set_property_pool_there_and_back ex_p ex_mem [] 0 1 ex_pool 5 ex_pool2);
    [concrete_owns|concrete_live|reflexivity|concrete_wf|lia|reflexivity].
Defined.
